(** * DemoDirector: timeline sanitization, live preview and export compositor

    A shallow embedding of the timeline code of
    [src/services/geminiService.ts] (the sanitization pass at the end of
    [analyzeVideoAndGenerateTimeline]) and of [src/components/Editor.tsx]
    (the [timeupdate] handler of the live preview, the offline renderer
    [renderToVideo] with its frame callback [drawFrame], and the highlight
    clip generator [handleGenerateMagicGifs]).

    Numbers.  A JavaScript [number] is modelled as an exact rational [Q]:
    the comparisons, [+], [-], [*], [Math.abs], [Math.min], [Math.max] and
    [Math.floor] of the source become their exact counterparts.  [NaN] and
    the infinities have no counterpart; a division is only looked at where
    its denominator is not zero.  Equality of times in the statements below
    is Leibniz equality of the rationals the code computes, unless [==]
    is written.  Where a result depends on the rounding of double
    precision (the export progress, the byte rate of the WAV header) the
    operations are those of [Double], which round every result to the
    nearest binary64 value. *)

From Stdlib Require Import QArith Qabs Qround Qminmax Qpower ZArith Lia Lqa.
From Stdlib Require Import List String Ascii Bool Sorted Permutation.
From Stdlib Require Strings.Byte.
Import ListNotations.

Local Open Scope Q_scope.

(** ** Data model ([src/types.ts]) *)

Inductive EventType : Type := caption | zoom | highlight.

Definition EventType_eqb (a b : EventType) : bool :=
  match a, b with
  | caption, caption | zoom, zoom | highlight, highlight => true
  | _, _ => false
  end.

Record Details : Type := mkDetails {
  x : option Q;
  y : option Q;
  zoomScale : option Q
}.

Record TimelineEvent : Type := mkEvent {
  id : string;
  ev_startTime : Q;
  ev_endTime : Q;
  text : string;
  type : EventType;
  details : option Details
}.

Record Subtitle : Type := mkSubtitle {
  sub_startTime : Q;
  sub_endTime : Q;
  sub_text : string
}.

(** Both interfaces carry [startTime] and [endTime]; the source reads them
    through the same property names. *)
Class Timed (A : Type) : Type := {
  startTime : A -> Q;
  endTime : A -> Q
}.

#[export] Instance TimelineEvent_Timed : Timed TimelineEvent :=
  {| startTime := ev_startTime; endTime := ev_endTime |}.

#[export] Instance Subtitle_Timed : Timed Subtitle :=
  {| startTime := sub_startTime; endTime := sub_endTime |}.

(** ** JavaScript array primitives *)

Section ArraySort.
Context {A : Type}.
Variable comparefn : A -> A -> Q.

(** [Array.prototype.sort] is a stable sort: an element stays ahead of
    the later elements it does not compare greater than.  Insertion from
    the right computes that permutation. *)
Fixpoint sort_insert (a : A) (l : list A) : list A :=
  match l with
  | [] => [a]
  | b :: l' =>
      if Qle_bool (comparefn a b) 0 then a :: b :: l'
      else b :: sort_insert a l'
  end.

Fixpoint sort (l : list A) : list A :=
  match l with
  | [] => []
  | a :: l' => sort_insert a (sort l')
  end.
End ArraySort.

(** ** Double-precision arithmetic

    The value of a JavaScript number is a binary64 float.  [round64] takes
    an exact rational result to the nearest such value, ties to even,
    with gradual underflow below [2^-1022]; results beyond the largest
    finite double are outside the model. *)

Module Double.

Definition pow2 (z : Z) : Q := 2 ^ z.

(** The binary exponent of a positive rational: [2^k <= q < 2^(k+1)]. *)
Definition ilog2 (q : Q) : Z :=
  let k := (Z.log2 (Qnum q) - Z.log2 (Zpos (Qden q)))%Z in
  if Qle_bool (pow2 k) q then k else (k - 1)%Z.

(** Rounding to the nearest integer, ties to the even one. *)
Definition rne (x : Q) : Z :=
  let f := Qfloor x in
  match Qcompare (x - inject_Z f) (1 # 2) with
  | Lt => f
  | Gt => (f + 1)%Z
  | Eq => if Z.even f then f else (f + 1)%Z
  end.

(** The exponent of the last place of the double nearest to [q]: 53
    significant bits, and no finer than [2^-1074]. *)
Definition exponent (q : Q) : Z := Z.max (-1074) (ilog2 q - 52).

Definition roundPos (q : Q) : Q :=
  let e := exponent q in inject_Z (rne (q / pow2 e)) * pow2 e.

Definition round64 (q : Q) : Q :=
  match Qcompare q 0 with
  | Eq => 0
  | Gt => roundPos q
  | Lt => - roundPos (- q)
  end.

(** The four operations of the source on numbers. *)
Definition add (a b : Q) : Q := round64 (a + b).
Definition sub (a b : Q) : Q := round64 (a - b).
Definition mul (a b : Q) : Q := round64 (a * b).
Definition div (a b : Q) : Q := round64 (a / b).

(** A rational that is the value of a double. *)
Definition representable (q : Q) : Prop := round64 q == q.

End Double.

(** ** Sanitization ([src/services/geminiService.ts], lines 276-282) *)

Module Sanitize.

(** The body of the [map] callback:
    [let end = t.endTime; if (end - t.startTime < 2.0) end = t.startTime + 2.0;
     return { ...t, endTime: end }]. *)
Definition extend (t : TimelineEvent) : TimelineEvent :=
  let end_ :=
    if Qlt_le_dec (ev_endTime t - ev_startTime t) 2
    then ev_startTime t + 2
    else ev_endTime t in
  mkEvent (id t) (ev_startTime t) end_ (text t) (type t) (details t).

(** The object spread [{ ...t, endTime: end }] on its own. *)
Definition withEndTime (t : TimelineEvent) (end_ : Q) : TimelineEvent :=
  mkEvent (id t) (ev_startTime t) end_ (text t) (type t) (details t).

(** The comparator [(a, b) => a.startTime - b.startTime]. *)
Definition byStartTime (a b : TimelineEvent) : Q :=
  ev_startTime a - ev_startTime b.

Definition sanitize (timeline : list TimelineEvent) : list TimelineEvent :=
  sort byStartTime (map extend timeline).

(** [let timeline = result.visualEvents || []] followed by the pass. *)
Definition timelineOfResult (visualEvents : option (list TimelineEvent))
  : list TimelineEvent :=
  sanitize (match visualEvents with Some l => l | None => [] end).

(** Ascending by start time, as a chain of adjacent [<=]. *)
Definition ascending (l : list TimelineEvent) : Prop :=
  Sorted (fun a b => ev_startTime a <= ev_startTime b) l.

End Sanitize.

(** ** Activity queries ([src/components/Editor.tsx]) *)

Section Activity.
Context {A : Type} `{Timed A}.

(** The callback [e => time >= e.startTime && time <= e.endTime]. *)
Definition activeAt (time : Q) (e : A) : bool :=
  Qle_bool (startTime e) time && Qle_bool time (endTime e).

(** The interval of [e] contains [time]. *)
Definition within (time : Q) (e : A) : Prop :=
  startTime e <= time /\ time <= endTime e.
End Activity.

(** [timeline.find(e => time >= e.startTime && time <= e.endTime)],
    lines 72-74 (and lines 78-80 for the subtitles). *)
Definition activeEvent (time : Q) (timeline : list TimelineEvent)
  : option TimelineEvent :=
  find (activeAt time) timeline.

Definition activeSubtitle (time : Q) (subtitles : list Subtitle)
  : option Subtitle :=
  find (activeAt time) subtitles.

(** [timeline.find(e => e.type === 'zoom' && time >= e.startTime && time <= e.endTime)],
    lines 84-86. *)
Definition activeZoom (time : Q) (timeline : list TimelineEvent)
  : option TimelineEvent :=
  find (fun e => EventType_eqb (type e) zoom && activeAt time e) timeline.

(** [timeline.find(e => t >= e.startTime && t <= e.endTime && e.type === 'caption')],
    line 293 of the export compositor. *)
Definition exportCaption (t : Q) (timeline : list TimelineEvent)
  : option TimelineEvent :=
  find (fun e => activeAt t e && EventType_eqb (type e) caption) timeline.

(** What a query result has to be: the first entry of the list that
    satisfies [P], or nothing when no entry does. *)
Definition FirstMatch {A : Type} (P : A -> Prop) (l : list A) (r : option A)
  : Prop :=
  match r with
  | Some a =>
      P a /\ exists before after,
        l = before ++ a :: after /\ Forall (fun b => ~ P b) before
  | None => Forall (fun b => ~ P b) l
  end.

(** An [HTMLMediaElement], as far as the editor reads or writes it. *)
Record MediaElement : Type := mkMedia {
  currentTime : Q;
  paused : bool;
  ended : bool;
  playbackRate : Q;
  videoWidth : Q;
  videoHeight : Q
}.

(** ** Live preview: the [timeupdate] handler (lines 59-102) *)

Module Preview.

Inductive Origin : Type :=
| center_center
| percent (x y : Q).

Record ZoomStyle : Type := mkZoomStyle {
  transformOrigin : Origin;
  transform_scale : Q;
  transition : string
}.

(** The React state the handler writes, and the audio element behind
    [audioRef.current] ([None] while the ref is null). *)
Record State : Type := mkState {
  st_currentTime : Q;
  currentCaption : option TimelineEvent;
  currentSubtitle : option Subtitle;
  zoomStyle : ZoomStyle;
  aud : option MediaElement
}.

Definition set_currentTime (a : MediaElement) (time : Q) : MediaElement :=
  mkMedia time (paused a) (ended a) (playbackRate a)
    (videoWidth a) (videoHeight a).

(** Lines 65-68:
    [if (aud && isVoiceoverEnabled && !aud.paused &&
         Math.abs(aud.currentTime - time) > 0.3) aud.currentTime = time]. *)
Definition syncAudio (isVoiceoverEnabled : bool) (time : Q)
    (aud : option MediaElement) : option MediaElement :=
  match aud with
  | None => None
  | Some a =>
      if isVoiceoverEnabled && negb (paused a)
         && negb (Qle_bool (Qabs (currentTime a - time)) (3 # 10))
      then Some (set_currentTime a time)
      else Some a
  end.

Definition orDefault (o : option Q) (d : Q) : Q :=
  match o with Some v => v | None => d end.

(** Lines 88-101. *)
Definition zoomFor (z : option TimelineEvent) : ZoomStyle :=
  match z with
  | Some {| details := Some d |} =>
      mkZoomStyle
        (percent (orDefault (x d) 50) (orDefault (y d) 50))
        (orDefault (zoomScale d) (3 # 2))
        "transform 1.5s cubic-bezier(0.4, 0, 0.2, 1)"
  | _ => mkZoomStyle center_center 1 "transform 1s ease-out"
  end.

Definition handleTimeUpdate
    (timeline : list TimelineEvent) (subtitles : list Subtitle)
    (isVoiceoverEnabled isExporting : bool)
    (vid : MediaElement) (st : State) : State :=
  if isExporting then st
  else
    let time := currentTime vid in
    mkState time
      (activeEvent time timeline)
      (activeSubtitle time subtitles)
      (zoomFor (activeZoom time timeline))
      (syncAudio isVoiceoverEnabled time (aud st)).

(** Lines 556-564: the top overlay is rendered when [currentCaption] is
    set, and shows its text. *)
Definition captionOverlay (st : State) : option string :=
  match currentCaption st with
  | Some e => Some (text e)
  | None => None
  end.

End Preview.

(** ** Offline export: [renderToVideo] (lines 193-358) *)

Module Render.

Inductive Format : Type := landscape | portrait.

Definition width (format : Format) : Q :=
  match format with landscape => 1280 | portrait => 720 end.

Definition height (format : Format) : Q :=
  match format with landscape => 720 | portrait => 1280 end.

(** Canvas calls of one frame, in the order they are issued.  The
    caption block (lines 295-320) and the subtitle block (lines 327-338)
    are one operation each. *)
Inductive DrawOp : Type :=
| fillRect (fillStyle : string) (x y w h : Q)
| drawImage (dx dy dw dh : Q)
| captionBox (text : string) (boxX boxY boxW boxH : Q)
| subtitleText (text : string) (xPos yPos : Q).

(** The editor's props and state that [renderToVideo] closes over. *)
Record Props : Type := mkProps {
  timeline : list TimelineEvent;
  subtitles : list Subtitle;
  audioBlob : option string;
  isVoiceoverEnabled : bool
}.

(** The browser, as far as the export depends on it. *)
Record Browser : Type := mkBrowser {
  decodeAudioData : string -> bool;
  isTypeSupported : string -> bool;
  measureText : string -> Q;
  getContext2d : bool
}.

(** Lines 294-321. *)
Definition drawCaption (b : Browser) (format : Format)
    (evt : option TimelineEvent) : list DrawOp :=
  match evt with
  | Some e =>
      let pad := 20 in
      let boxW := measureText b (text e) + pad * 2 in
      let boxH := 50 in
      let boxX := (width format - boxW) / 2 in
      let boxY := match format with portrait => 150 | landscape => 60 end in
      [captionBox (text e) boxX boxY boxW boxH]
  | None => []
  end.

(** Lines 324-340. *)
Definition drawSubtitle (format : Format) (isGifMode : bool)
    (sub : option Subtitle) : list DrawOp :=
  if negb isGifMode then
    match sub with
    | Some s =>
        let yPos :=
          height format - match format with portrait => 100 | landscape => 50 end in
        [subtitleText (sub_text s) (width format / 2) yPos]
    | None => []
    end
  else [].

(** Line 345: the value handed to [setExportProgress],
    [Math.floor(((pos - startTime) / (endTime - startTime)) * 100)], each
    operation rounded to a double. *)
Definition progressAt (startTime endTime pos : Q) : Z :=
  Qfloor
    (Double.mul
       (Double.div (Double.sub pos startTime) (Double.sub endTime startTime))
       100).

Inductive FrameResult : Type :=
| Stop
| Drawn (ops : list DrawOp) (progress : option Z).

(** Lines 270-341 of [drawFrame]: the layout and the canvas calls of one
    frame (none when the canvas gave no 2D context). *)
Definition frameOps (b : Browser) (p : Props) (format : Format)
    (isGifMode : bool) (offlineVideo : MediaElement) : list DrawOp :=
  let vidW := videoWidth offlineVideo in
  let vidH := videoHeight offlineVideo in
  let scale := Qmax (width format / vidW) (height format / vidH) in
  let scaledW := vidW * scale in
  let scaledH := vidH * scale in
  let dx := (width format - scaledW) / 2 in
  let dy := (height format - scaledH) / 2 in
  if getContext2d b then
    let t := currentTime offlineVideo in
    fillRect "#000" 0 0 (width format) (height format)
      :: drawImage dx dy scaledW scaledH
      :: drawCaption b format (exportCaption t (timeline p))
      ++ drawSubtitle format isGifMode (activeSubtitle t (subtitles p))
  else [].

(** One call of [drawFrame] (lines 263-354) on the offline video as it
    stands at that call. *)
Definition drawFrame (b : Browser) (p : Props)
    (startTime endTime : Q) (format : Format) (isGifMode : bool)
    (offlineVideo : MediaElement) : FrameResult :=
  if Qle_bool endTime (currentTime offlineVideo) || ended offlineVideo
  then Stop
  else
    Drawn (frameOps b p format isGifMode offlineVideo)
      (if negb isGifMode
       then Some (progressAt startTime endTime (currentTime offlineVideo))
       else None).

(** The texts of the caption boxes and of the subtitles among the canvas
    calls of a frame. *)
Definition captionTexts (ops : list DrawOp) : list string :=
  flat_map (fun op => match op with captionBox t _ _ _ _ => [t] | _ => [] end)
    ops.

Definition subtitleTexts (ops : list DrawOp) : list string :=
  flat_map (fun op => match op with subtitleText t _ _ => [t] | _ => [] end)
    ops.

(** The render loop: [drawFrame] is called once, and once more for every
    frame callback, until it stops the recorder.  [ticks] is the offline
    video at each of these calls. *)
Record Loop : Type := mkLoop {
  stopped : bool;
  frames : list (list DrawOp);
  reports : list Z
}.

Definition consReport (r : option Z) (l : list Z) : list Z :=
  match r with Some v => v :: l | None => l end.

Fixpoint renderLoop (b : Browser) (p : Props)
    (startTime endTime : Q) (format : Format) (isGifMode : bool)
    (ticks : list MediaElement) : Loop :=
  match ticks with
  | [] => mkLoop false [] []
  | v :: rest =>
      match drawFrame b p startTime endTime format isGifMode v with
      | Stop => mkLoop true [] []
      | Drawn ops r =>
          let l := renderLoop b p startTime endTime format isGifMode rest in
          mkLoop (stopped l) (ops :: frames l) (consReport r (reports l))
      end
  end.

(** The frames that are composited: those before the first call that
    meets the stop condition of line 264. *)
Fixpoint composited (endTime : Q) (ticks : list MediaElement)
  : list MediaElement :=
  match ticks with
  | [] => []
  | v :: rest =>
      if Qle_bool endTime (currentTime v) || ended v then []
      else v :: composited endTime rest
  end.

(** The recorder and the blob it hands over on [onstop]. *)
Record Artifact : Type := mkArtifact {
  blobType : string;
  mimeType : string;
  videoBitsPerSecond : Z;
  audioTrack : bool;
  recorded : list (list DrawOp)
}.

Inductive Error : Type :=
| EncodingError      (* decodeAudioData rejects *)
| NotSupportedError. (* the MediaRecorder constructor throws *)

(** How the promise of [renderToVideo] ends: resolved with the blob;
    never settled because a step of the async executor threw (nothing
    catches it, [resolve] is never reached); or still waiting for a
    frame callback that meets the stop condition. *)
Inductive Outcome : Type :=
| Resolved (blob : Artifact)
| Threw (e : Error)
| Pending.

Record Run : Type := mkRun {
  outcome : Outcome;
  progressLog : list Z
}.

(** Lines 220-235: is the narration decoded and mixed in?  [Some true]
    when it is, [Some false] when the step is skipped, [None] when
    [decodeAudioData] rejects. *)
Definition audioSetup (b : Browser) (p : Props) (isGifMode : bool)
  : option bool :=
  if negb isGifMode && isVoiceoverEnabled p then
    match audioBlob p with
    | Some blob => if decodeAudioData b blob then Some true else None
    | None => Some false
    end
  else Some false.

(** Lines 244-247: the one mime type the recorder is asked for. *)
Definition recorderMimeType : string := "video/webm;codecs=vp9".

Definition recorderBitrate (isGifMode : bool) : Z :=
  if isGifMode then 2500000%Z else 5000000%Z.

(** The steps in source order: audio setup, recorder, render loop.  The
    metadata load and [offlineVideo.play()] are taken to succeed. *)
Definition renderToVideo (b : Browser) (p : Props)
    (startTime endTime : Q) (format : Format) (isGifMode : bool)
    (ticks : list MediaElement) : Run :=
  match audioSetup b p isGifMode with
  | None => mkRun (Threw EncodingError) []
  | Some audioDestination =>
      if isTypeSupported b recorderMimeType then
        let l := renderLoop b p startTime endTime format isGifMode ticks in
        mkRun
          (if stopped l
           then Resolved (mkArtifact "video/webm" recorderMimeType
                            (recorderBitrate isGifMode) audioDestination
                            (frames l))
           else Pending)
          (reports l)
      else mkRun (Threw NotSupportedError) []
  end.

(** Does the export fail at the construction of the recorder? *)
Definition encoderUnsupported (r : Run) : bool :=
  match outcome r with Threw NotSupportedError => true | _ => false end.

(** [handleExportVideo] (lines 360-379):
    [renderToVideo(0, duration || 30, format, false)], then
    [setExportProgress(0)] once the promise has resolved. *)
Definition handleExportVideo (b : Browser) (p : Props) (duration : Q)
    (format : Format) (ticks : list MediaElement) : Run :=
  let r :=
    renderToVideo b p 0 (if Qeq_bool duration 0 then 30 else duration)
      format false ticks in
  match outcome r with
  | Resolved _ => mkRun (outcome r) (progressLog r ++ [0%Z])
  | _ => r
  end.

(** The [clamp] of the specification's progress formula. *)
Definition clamp (v lo hi : Q) : Q := Qmax lo (Qmin v hi).

End Render.

(** ** Highlight clips: [handleGenerateMagicGifs] (lines 381-406) *)

Module Highlights.
Import Render.

(** A JavaScript string is a sequence of UTF-16 code units.  [\s] in a
    regular expression matches the white space and line terminator code
    points of ECMAScript, all of them single code units: tab to carriage
    return, space, U+00A0, U+1680, U+2000 to U+200A, U+2028, U+2029,
    U+202F, U+205F, U+3000 and U+FEFF. *)
Definition isWhitespace (c : N) : bool :=
  ((9 <=? c) && (c <=? 13)
   || (c =? 32) || (c =? 160) || (c =? 5760)
   || (8192 <=? c) && (c <=? 8202)
   || (c =? 8232) || (c =? 8233) || (c =? 8239) || (c =? 8287)
   || (c =? 12288) || (c =? 65279))%N.

(** The code unit of [-]. *)
Definition dash : N := 45%N.

(** [text.replace(/\s+/g, '-')]: every run of whitespace becomes one
    dash. *)
Fixpoint replaceWhitespace (inRun : bool) (s : list N) : list N :=
  match s with
  | [] => []
  | c :: s' =>
      if isWhitespace c then
        if inRun then replaceWhitespace true s'
        else dash :: replaceWhitespace true s'
      else c :: replaceWhitespace false s'
  end.

(** The texts of the data model are strings of code units below 256. *)
Definition codeUnits (s : string) : list N :=
  map N_of_ascii (list_ascii_of_string s).

Definition ofCodeUnits (l : list N) : string :=
  string_of_list_ascii (map ascii_of_N l).

Definition gifName (evt : TimelineEvent) : string :=
  ("GIF-" ++ ofCodeUnits (replaceWhitespace false (codeUnits (text evt)))
     ++ ".webm")%string.

(** [timeline.filter(t => t.type !== 'zoom').slice(0, 3)]. *)
Definition pickEvents (timeline : list TimelineEvent) : list TimelineEvent :=
  firstn 3 (filter (fun t => negb (EventType_eqb (type t) zoom)) timeline).

(** One call [renderToVideo(start, end, 'landscape', true)]. *)
Record Call : Type := mkCall {
  call_event : TimelineEvent;
  call_start : Q;
  call_end : Q;
  call_format : Format;
  call_isGifMode : bool
}.

Definition callFor (duration : Q) (evt : TimelineEvent) : Call :=
  let start := ev_startTime evt in
  let end_ := Qmin (ev_startTime evt + 3) duration in
  mkCall evt start end_ landscape true.

Definition calls (timeline : list TimelineEvent) (duration : Q) : list Call :=
  map (callFor duration) (pickEvents timeline).

Record Gif : Type := mkGif {
  gif_blob : Artifact;
  gif_name : string
}.

(** The [for] loop: each call is awaited; a call whose promise does not
    resolve leaves the handler waiting ([None]).  [ticksOf] gives the
    frame callbacks of the run made for an event. *)
Fixpoint collect (b : Browser) (p : Props)
    (ticksOf : TimelineEvent -> list MediaElement)
    (cs : list Call) : option (list Gif) :=
  match cs with
  | [] => Some []
  | c :: rest =>
      match outcome (renderToVideo b p (call_start c) (call_end c)
                       (call_format c) (call_isGifMode c)
                       (ticksOf (call_event c))) with
      | Resolved blob =>
          match collect b p ticksOf rest with
          | Some gifs => Some (mkGif blob (gifName (call_event c)) :: gifs)
          | None => None
          end
      | _ => None
      end
  end.

Definition handleGenerateMagicGifs (b : Browser) (p : Props)
    (duration : Q) (ticksOf : TimelineEvent -> list MediaElement)
  : option (list Gif) :=
  collect b p ticksOf (calls (timeline p) duration).

End Highlights.

(** ** Concrete inputs used by the examples below *)

Module Fixtures.
Import Render.

Definition captionA : TimelineEvent := mkEvent "a" 0 3 "first" caption None.
Definition captionB : TimelineEvent := mkEvent "b" 1 4 "second" caption None.
Definition zoomZ : TimelineEvent :=
  mkEvent "z" 0 3 "Zooming in" zoom (Some (mkDetails (Some 20) None None)).
Definition highlightH : TimelineEvent :=
  mkEvent "h" 6 9 "Look  here" highlight None.

(** The offline video at position [pos] of a 1920x1080 recording. *)
Definition tick (pos : Q) : MediaElement := mkMedia pos false false 1 1920 1080.

(** A browser in which every step succeeds. *)
Definition browser : Browser :=
  mkBrowser (fun _ => true) (fun _ => true)
    (fun s => inject_Z (Z.of_nat (15 * String.length s))) true.

(** The same browser without VP9: it records WebM with VP8 only. *)
Definition browserNoVp9 : Browser :=
  mkBrowser (fun _ => true)
    (fun m => negb (String.eqb m "video/webm;codecs=vp9"))
    (measureText browser) true.

(** The same browser, rejecting the narration it is asked to decode. *)
Definition browserBadAudio : Browser :=
  mkBrowser (fun _ => false) (fun _ => true) (measureText browser) true.

(** The frame callbacks of a run over ten seconds. *)
Definition exampleTicks : list MediaElement :=
  [tick 0; tick (1 # 4); tick 5; tick 10].

Definition props : Props :=
  mkProps [captionA; captionB] [mkSubtitle 0 4 "Welcome"] (Some "RIFF"%string) true.

End Fixtures.

(** ** WAV container ([src/services/geminiService.ts], lines 32-78) *)

Module Wav.

(** [ToUint8]: the byte stored for an integer. *)
Definition toUint8 (v : Z) : Byte.byte :=
  match Byte.of_N (Z.to_N (v mod 256)) with
  | Some b => b
  | None => Byte.x00
  end.

Definition byteValue (b : Byte.byte) : Z := Z.of_N (Byte.to_N b).

(** The integer a [DataView] setter makes of a number: truncation toward
    zero (the reduction modulo the field width is done per byte). *)
Definition toInteger (q : Q) : Z :=
  if Qle_bool 0 q then Qfloor q else Qceiling q.

Definition bind {A B : Type} (o : option A) (f : A -> option B) : option B :=
  match o with Some a => f a | None => None end.

(** [view.setUint8(offset, v)]; [None] is the [RangeError] of a write
    outside the buffer. *)
Definition setUint8 (view : list Byte.byte) (offset : nat) (v : Z)
  : option (list Byte.byte) :=
  if (offset <? List.length view)%nat
  then Some (firstn offset view ++ toUint8 v :: skipn (S offset) view)
  else None.

(** [view.setUint16(offset, value, true)] and
    [view.setUint32(offset, value, true)]: little-endian. *)
Definition setUint16 (view : list Byte.byte) (offset : nat) (value : Q)
  : option (list Byte.byte) :=
  let n := toInteger value in
  bind (setUint8 view offset n) (fun v =>
  setUint8 v (offset + 1) (n / 256)).

Definition setUint32 (view : list Byte.byte) (offset : nat) (value : Q)
  : option (list Byte.byte) :=
  let n := toInteger value in
  bind (setUint8 view offset n) (fun v =>
  bind (setUint8 v (offset + 1) (n / 256)) (fun v =>
  bind (setUint8 v (offset + 2) (n / 65536)) (fun v =>
  setUint8 v (offset + 3) (n / 16777216)))).

(** [writeString] (lines 33-37). *)
Fixpoint writeString (view : list Byte.byte) (offset : nat) (s : string)
  : option (list Byte.byte) :=
  match s with
  | EmptyString => Some view
  | String c s' =>
      bind (setUint8 view offset (Z.of_nat (nat_of_ascii c))) (fun v =>
      writeString v (S offset) s')
  end.

(** [new Uint8Array(buffer, offset).set(src)]. *)
Definition setBytes (view : list Byte.byte) (offset : nat)
    (src : list Byte.byte) : option (list Byte.byte) :=
  if (offset + List.length src <=? List.length view)%nat
  then Some (firstn offset view ++ src
               ++ skipn (offset + List.length src) view)
  else None.

Definition orDefault (o : option Q) (d : Q) : Q :=
  match o with Some v => v | None => d end.

(** [addWavHeader] (lines 40-78); an omitted [numChannels] is 1, an
    omitted [bitDepth] is 16.  The sums, products and the quotient are
    those of double precision. *)
Definition addWavHeader (pcmData : list Byte.byte) (sampleRate : Q)
    (numChannels' bitDepth' : option Q) : option (list Byte.byte) :=
  let numChannels := orDefault numChannels' 1 in
  let bitDepth := orDefault bitDepth' 16 in
  let headerLength := 44%nat in
  let dataLength := List.length pcmData in
  let buffer := repeat Byte.x00 (headerLength + dataLength) in
  let len := inject_Z (Z.of_nat dataLength) in
  bind (writeString buffer 0 "RIFF") (fun view =>
  bind (setUint32 view 4 (Double.add 36 len)) (fun view =>
  bind (writeString view 8 "WAVE") (fun view =>
  bind (writeString view 12 "fmt ") (fun view =>
  bind (setUint32 view 16 16) (fun view =>
  bind (setUint16 view 20 1) (fun view =>
  bind (setUint16 view 22 numChannels) (fun view =>
  bind (setUint32 view 24 sampleRate) (fun view =>
  bind (setUint32 view 28
          (Double.mul (Double.mul sampleRate numChannels)
             (Double.div bitDepth 8)))
    (fun view =>
  bind (setUint16 view 32 (Double.mul numChannels (Double.div bitDepth 8)))
    (fun view =>
  bind (setUint16 view 34 bitDepth) (fun view =>
  bind (writeString view 36 "data") (fun view =>
  bind (setUint32 view 40 len) (fun view =>
  setBytes view headerLength pcmData))))))))))))).

(** The call of [generateVoiceover] (line 327). *)
Definition voiceoverWav (pcmData : list Byte.byte) : option (list Byte.byte) :=
  addWavHeader pcmData 24000 (Some 1) (Some 16).

(** Readers, to state what a decoder finds in the buffer: the
    little-endian getters of a [DataView] and a run of characters. *)
Definition getUint8 (view : list Byte.byte) (offset : nat) : option Z :=
  option_map byteValue (nth_error view offset).

Definition getUint16 (view : list Byte.byte) (offset : nat) : option Z :=
  match getUint8 view offset, getUint8 view (offset + 1) with
  | Some b0, Some b1 => Some (b0 + 256 * b1)%Z
  | _, _ => None
  end.

Definition getUint32 (view : list Byte.byte) (offset : nat) : option Z :=
  match getUint8 view offset, getUint8 view (offset + 1),
        getUint8 view (offset + 2), getUint8 view (offset + 3) with
  | Some b0, Some b1, Some b2, Some b3 =>
      Some (b0 + 256 * b1 + 65536 * b2 + 16777216 * b3)%Z
  | _, _, _, _ => None
  end.

Fixpoint getString (view : list Byte.byte) (offset n : nat) : option string :=
  match n with
  | O => Some EmptyString
  | S n' =>
      match getUint8 view offset, getString view (S offset) n' with
      | Some b, Some s => Some (String (ascii_of_nat (Z.to_nat b)) s)
      | _, _ => None
      end
  end.

(** The bytes the writers leave behind. *)
Definition bytesOf (s : string) : list Byte.byte :=
  map (fun c => toUint8 (Z.of_nat (nat_of_ascii c))) (list_ascii_of_string s).

Definition le16 (q : Q) : list Byte.byte :=
  let n := toInteger q in [toUint8 n; toUint8 (n / 256)].

Definition le32 (q : Q) : list Byte.byte :=
  let n := toInteger q in
  [toUint8 n; toUint8 (n / 256); toUint8 (n / 65536); toUint8 (n / 16777216)].

Definition wavHeader (dataLength : nat) (sampleRate numChannels bitDepth : Q)
  : list Byte.byte :=
  let len := inject_Z (Z.of_nat dataLength) in
  bytesOf "RIFF" ++ le32 (Double.add 36 len) ++ bytesOf "WAVE"
  ++ bytesOf "fmt "
  ++ le32 16 ++ le16 1 ++ le16 numChannels ++ le32 sampleRate
  ++ le32 (Double.mul (Double.mul sampleRate numChannels)
             (Double.div bitDepth 8))
  ++ le16 (Double.mul numChannels (Double.div bitDepth 8)) ++ le16 bitDepth
  ++ bytesOf "data" ++ le32 len.

End Wav.

(** ** The end of [analyzeVideoAndGenerateTimeline]
    ([src/services/geminiService.ts], lines 180-183 and 266-292) *)

Module Service.

(** [s.split(sep)[0]]: the text before the first separator. *)
Fixpoint splitHead (sep : ascii) (s : string) : string :=
  match s with
  | EmptyString => EmptyString
  | String c s' =>
      if Ascii.eqb c sep then EmptyString else String c (splitHead sep s')
  end.

(** [s.includes(c)]. *)
Fixpoint includes (c : ascii) (s : string) : bool :=
  match s with
  | EmptyString => false
  | String d s' => Ascii.eqb d c || includes c s'
  end.

(** Lines 180-183: [videoBlob.type || 'video/webm'], cut at the first [;]. *)
Definition cleanMimeType (blobType : string) : string :=
  let mimeType :=
    if String.eqb blobType "" then "video/webm"%string else blobType in
  if includes ";" mimeType then splitHead ";" mimeType else mimeType.

(** Lines 269-271. *)
Definition fallbackSubtitles (url : string) : list Subtitle :=
  [mkSubtitle 0 5 ("Welcome to the demo of " ++ url)].

Definition bySubtitleStart (a b : Subtitle) : Q :=
  sub_startTime a - sub_startTime b.

Record Analysis : Type := mkAnalysis {
  timeline : list TimelineEvent;
  subtitles : list Subtitle;
  script : string
}.

(** Lines 266-292, from the parsed response on.  The script is joined
    before the subtitles are sorted for the return value. *)
Definition analysisOfResult (url : string)
    (resultSubtitles : option (list Subtitle))
    (visualEvents : option (list TimelineEvent)) : Analysis :=
  let subtitles :=
    match resultSubtitles with Some l => l | None => fallbackSubtitles url end in
  let timeline := Sanitize.timelineOfResult visualEvents in
  let script := String.concat " " (map sub_text subtitles) in
  mkAnalysis timeline (sort bySubtitleStart subtitles) script.

End Service.

(** ** The project library and the processing step ([src/App.tsx]) *)

Module App.

Inductive AppStep : Type :=
| LANDING | LIBRARY | PLANNING | RECORDING | PROCESSING | EDITING.

Record Shot : Type := mkShot {
  shot_id : string;
  shot_action : string;
  shot_description : string;
  estimatedDuration : Q
}.

Inductive ActionKind : Type := click | type_ | scroll | wait.

Record BrowserAction : Type := mkBrowserAction {
  action_id : string;
  action : ActionKind;
  target : string;
  selector : option string;
  action_details : string;
  action_x : Q;
  action_y : Q;
  duration : Q
}.

Record DemoProject : Type := mkProject {
  id : string;
  createdAt : Z;
  url : string;
  description : string;
  shotList : list Shot;
  browserActions : option (list BrowserAction);
  videoBlob : option string;
  videoUrl : option string;
  timeline : list TimelineEvent;
  subtitles : list Subtitle;
  voiceoverScript : string;
  audioBlob : option string
}.

(** [handleSaveProject] (lines 108-117), as the update of [savedProjects]. *)
Definition handleSaveProject (project : DemoProject) (prev : list DemoProject)
  : list DemoProject :=
  match find (fun p => String.eqb (id p) (id project)) prev with
  | Some _ =>
      map (fun p => if String.eqb (id p) (id project) then project else p) prev
  | None => prev ++ [project]
  end.

(** [handleDeleteProject] (lines 119-121). *)
Definition handleDeleteProject (id' : string) (prev : list DemoProject)
  : list DemoProject :=
  filter (fun p => negb (String.eqb (id p) id')) prev.

Record State : Type := mkState {
  step : AppStep;
  project : DemoProject;
  processingStatus : string;
  error : option string
}.

Definition withVideo (p : DemoProject) (blob : string) : DemoProject :=
  mkProject (id p) (createdAt p) (url p) (description p) (shotList p)
    (browserActions p) (Some blob) (videoUrl p) (timeline p) (subtitles p)
    (voiceoverScript p) (audioBlob p).

Definition withAnalysis (p : DemoProject) (a : Service.Analysis) : DemoProject :=
  mkProject (id p) (createdAt p) (url p) (description p) (shotList p)
    (browserActions p) (videoBlob p) (videoUrl p) (Service.timeline a)
    (Service.subtitles a) (Service.script a) (audioBlob p).

Definition withAudio (p : DemoProject) (audio : string) : DemoProject :=
  mkProject (id p) (createdAt p) (url p) (description p) (shotList p)
    (browserActions p) (videoBlob p) (videoUrl p) (timeline p) (subtitles p)
    (voiceoverScript p) (Some audio).

Definition processingError : string :=
  "Failed to process video. The AI could not analyze the visual content. Please try recording again.".

(** [handleRecordingComplete] (lines 80-106).  The two services are
    functions of their arguments; [None] is a rejected promise. *)
Definition handleRecordingComplete
    (analyzeVideoAndGenerateTimeline :
       string -> string -> string -> option Service.Analysis)
    (generateVoiceover : string -> option string)
    (blob : string) (st : State) : State :=
  let p1 := withVideo (project st) blob in
  match analyzeVideoAndGenerateTimeline blob (url (project st))
          (description (project st)) with
  | None =>
      mkState RECORDING p1
        "Analyzing video content (this may take 30s)..."
        (Some processingError)
  | Some a =>
      let p2 := withAnalysis p1 a in
      if String.eqb (Service.script a) "" then
        mkState EDITING p2
          "Analyzing video content (this may take 30s)..." (error st)
      else
        match generateVoiceover (Service.script a) with
        | None =>
            mkState RECORDING p2 "Generating AI voiceover..."
              (Some processingError)
        | Some audio =>
            mkState EDITING (withAudio p2 audio)
              "Generating AI voiceover..." (error st)
        end
  end.

(** [handleOpenProject] (lines 123-126). *)
Definition handleOpenProject (proj : DemoProject) (st : State) : State :=
  mkState EDITING proj (processingStatus st) (error st).

(** What the render logic (lines 145-223) puts on screen. *)
Inductive View : Type :=
| IconTest
| LibraryView
| ShotListView
| RecorderView (banner : option string)
| ProcessingView (status : string)
| EditorView (videoBlob : string) (audioBlob : option string)
    (timeline : list TimelineEvent) (subtitles : list Subtitle)
    (voiceoverScript : string)
| UnknownState.

Definition render (st : State) : View :=
  match step st with
  | LANDING => IconTest
  | LIBRARY => LibraryView
  | PLANNING => ShotListView
  | RECORDING => RecorderView (error st)
  | PROCESSING => ProcessingView (processingStatus st)
  | EDITING =>
      match videoBlob (project st) with
      | Some v =>
          EditorView v (audioBlob (project st)) (timeline (project st))
            (subtitles (project st)) (voiceoverScript (project st))
      | None => UnknownState
      end
  end.

End App.

(** ** Recording and blueprint download ([src/components/ShotList.tsx]) *)

Module Recorder.

(** Lines 263-267. *)
Definition mimeTypes : list string :=
  ["video/webm;codecs=vp9"; "video/webm"; "video/mp4"]%string.

Inductive Outcome : Type :=
| NoStream
| Started (mimeType blobType : string) (videoBitsPerSecond : Z)
| Failed.

(** [startRecording] (lines 257-309): without a stream nothing happens;
    the [MediaRecorder] constructor throws on a type the browser does not
    support, which the [catch] turns into an error message. *)
Definition startRecording (isTypeSupported : string -> bool) (stream : bool)
  : Outcome :=
  if negb stream then NoStream
  else
    let selectedType :=
      match find isTypeSupported mimeTypes with
      | Some t => t
      | None => "video/webm"%string
      end in
    let simpleType := Service.splitHead ";" selectedType in
    if isTypeSupported selectedType
    then Started selectedType simpleType 1000000
    else Failed.

(** [SimulationView.startSimulation] (lines 445-475): without a stream
    nothing happens; the recorder is asked for VP9 when the browser
    supports it and for plain [video/webm] otherwise, at 2.5 Mbit/s, and
    the blob is labelled [video/webm].  Nothing catches the constructor
    when it throws. *)
Definition startSimulation (isTypeSupported : string -> bool) (stream : bool)
  : Outcome :=
  if negb stream then NoStream
  else
    let mimeType :=
      if isTypeSupported "video/webm;codecs=vp9"%string
      then "video/webm;codecs=vp9"%string
      else "video/webm"%string in
    if isTypeSupported mimeType
    then Started mimeType "video/webm"%string 2500000
    else Failed.

Definition inRange (lo hi : nat) (c : ascii) : bool :=
  let n := nat_of_ascii c in (Nat.leb lo n && Nat.leb n hi)%bool.

Definition isLower (c : ascii) : bool := inRange 97 122 c.
Definition isUpper (c : ascii) : bool := inRange 65 90 c.
Definition isDigit (c : ascii) : bool := inRange 48 57 c.

(** One character of [url.replace(/[^a-z0-9]/gi, '-')]. *)
Definition dashUnlessAlnum (c : ascii) : ascii :=
  if (isLower c || isUpper c || isDigit c)%bool then c else "-"%char.

(** One character of [toLowerCase]. *)
Definition lowerChar (c : ascii) : ascii :=
  if isUpper c then ascii_of_nat (nat_of_ascii c + 32) else c.

Fixpoint mapString (f : ascii -> ascii) (s : string) : string :=
  match s with
  | EmptyString => EmptyString
  | String c s' => String (f c) (mapString f s')
  end.

(** The file name of [downloadBlueprint] (line 41). *)
Definition blueprintSlug (url : string) : string :=
  mapString lowerChar (mapString dashUnlessAlnum url).

(** The characters a slug is made of, and a test over a whole string. *)
Definition slugChar (c : ascii) : bool :=
  (isLower c || isDigit c || Ascii.eqb c "-")%bool.

Fixpoint allChars (f : ascii -> bool) (s : string) : bool :=
  match s with
  | EmptyString => true
  | String c s' => f c && allChars f s'
  end.

Definition blueprintName (url : string) : string :=
  ("automation-blueprint-" ++ blueprintSlug url ++ ".json")%string.

End Recorder.

(** ** Seeking in the preview ([src/components/Editor.tsx], lines 116-118,
    170-180 and 566-573) *)

Module Controls.
Import Preview.

Definition with_currentTime (st : State) (time : Q) : State :=
  mkState time (currentCaption st) (currentSubtitle st) (zoomStyle st) (aud st).

Definition with_aud (st : State) (a : option MediaElement) : State :=
  mkState (st_currentTime st) (currentCaption st) (currentSubtitle st)
    (zoomStyle st) a.

(** [seek] (lines 170-180), on the video element behind [videoRef] and
    the state that holds the audio element.  The time is written as it
    is given: the browser's clamping of [currentTime] to the length of
    the media is left out. *)
Definition seek (isExporting : bool) (time : Q) (vid : option MediaElement)
    (st : State) : option MediaElement * State :=
  if isExporting then (vid, st)
  else
    let '(vid', st1) :=
      match vid with
      | Some v => (Some (set_currentTime v time), with_currentTime st time)
      | None => (None, st)
      end in
    (vid',
     with_aud st1
       (match aud st1 with
        | Some a => Some (set_currentTime a time)
        | None => None
        end)).

(** [handleSeek] (lines 116-118), the listener of [seeking]. *)
Definition handleSeek (isExporting : bool) (vid : MediaElement) (st : State)
  : State :=
  match aud st with
  | Some a =>
      if negb isExporting
      then with_aud st (Some (set_currentTime a (currentTime vid)))
      else st
  | None => st
  end.

(** Lines 566-573: the bottom overlay of the preview. *)
Definition subtitleOverlay (isVoiceoverEnabled : bool) (st : State)
  : option string :=
  match currentSubtitle st with
  | Some s => if isVoiceoverEnabled then Some (sub_text s) else None
  | None => None
  end.

End Controls.

(** ** Sorting lemmas *)

Section SortFacts.
Context {A : Type}.
Variable key : A -> Q.
Let cmp (a b : A) : Q := key a - key b.
Let le (a b : A) : Prop := key a <= key b.

Lemma cmp_le_iff a b : Qle_bool (cmp a b) 0 = true <-> le a b.
Proof.
  unfold cmp, le. rewrite Qle_bool_iff. split; intro H; lra.
Qed.

Lemma sort_insert_perm a l : Permutation (sort_insert cmp a l) (a :: l).
Proof.
  induction l as [|b l IH]; simpl.
  - reflexivity.
  - destruct (Qle_bool (cmp a b) 0).
    + reflexivity.
    + rewrite IH. apply perm_swap.
Qed.

Lemma sort_perm l : Permutation (sort cmp l) l.
Proof.
  induction l as [|a l IH]; simpl.
  - constructor.
  - rewrite sort_insert_perm. now constructor.
Qed.

Lemma sort_insert_hd a b l :
  le b a -> HdRel le b l -> HdRel le b (sort_insert cmp a l).
Proof.
  intros Hba Hl. destruct l as [|c l]; simpl.
  - now constructor.
  - destruct (Qle_bool (cmp a c) 0); constructor; auto.
    now inversion Hl.
Qed.

Lemma sort_insert_sorted a l :
  Sorted le l -> Sorted le (sort_insert cmp a l).
Proof.
  induction 1 as [|b l Hs IH Hhd]; simpl.
  - repeat constructor.
  - destruct (Qle_bool (cmp a b) 0) eqn:E.
    + apply cmp_le_iff in E. repeat constructor; auto.
    + constructor; auto. apply sort_insert_hd; auto.
      assert (~ le a b) as N.
      { intro L. apply cmp_le_iff in L. congruence. }
      unfold le in *. lra.
Qed.

Lemma sort_sorted l : Sorted le (sort cmp l).
Proof.
  induction l as [|a l IH]; simpl.
  - constructor.
  - now apply sort_insert_sorted.
Qed.

(** A list that is already in order is returned as it is. *)
Lemma sort_insert_below a l :
  HdRel le a l -> sort_insert cmp a l = a :: l.
Proof.
  intros H. destruct l as [|b l]; simpl; auto.
  inversion H as [|? ? Hab]; subst.
  apply cmp_le_iff in Hab. now rewrite Hab.
Qed.

Lemma sort_fixed l : Sorted le l -> sort cmp l = l.
Proof.
  induction 1 as [|a l Hs IH Hhd]; simpl; auto.
  rewrite IH. now apply sort_insert_below.
Qed.
(** Stability: entries with the same key keep their order. *)
Lemma sort_insert_same_key (k : Q) a l :
  filter (fun b => Qeq_bool (key b) k) (sort_insert cmp a l)
  = filter (fun b => Qeq_bool (key b) k) (a :: l).
Proof.
  induction l as [|b l IH]; [reflexivity |].
  cbn [sort_insert]. destruct (Qle_bool (cmp a b) 0) eqn:E; [reflexivity |].
  cbn [filter] in *. rewrite IH.
  destruct (Qeq_bool (key a) k) eqn:Ea, (Qeq_bool (key b) k) eqn:Eb;
    try reflexivity.
  apply Qeq_bool_iff in Ea, Eb.
  assert (le a b) as L by (unfold le; lra).
  apply cmp_le_iff in L. congruence.
Qed.

Lemma sort_stable (k : Q) l :
  filter (fun b => Qeq_bool (key b) k) (sort cmp l)
  = filter (fun b => Qeq_bool (key b) k) l.
Proof.
  induction l as [|a l IH]; [reflexivity |].
  cbn [sort]. rewrite sort_insert_same_key. cbn [filter]. now rewrite IH.
Qed.

End SortFacts.

(** ** Properties of the sanitization pass *)

Module SanitizeFacts.
Import Sanitize.

Lemma extend_startTime t : ev_startTime (extend t) = ev_startTime t.
Proof. reflexivity. Qed.

Lemma extend_short t :
  ev_endTime t - ev_startTime t < 2 ->
  extend t = mkEvent (id t) (ev_startTime t) (ev_startTime t + 2)
               (text t) (type t) (details t).
Proof.
  intros H. unfold extend.
  destruct (Qlt_le_dec _ 2) as [_|L]; [reflexivity | lra].
Qed.

Lemma extend_long t : 2 <= ev_endTime t - ev_startTime t -> extend t = t.
Proof.
  intros H. unfold extend.
  destruct (Qlt_le_dec _ 2) as [L|_]; [lra | now destruct t].
Qed.

Lemma extend_min_duration t : 2 <= ev_endTime (extend t) - ev_startTime (extend t).
Proof.
  unfold extend; simpl.
  destruct (Qlt_le_dec _ 2) as [L|L]; lra.
Qed.

Lemma extend_idem t : extend (extend t) = extend t.
Proof. apply extend_long, extend_min_duration. Qed.

Lemma sanitize_perm raw : Permutation (sanitize raw) (map extend raw).
Proof. apply (sort_perm ev_startTime). Qed.

Lemma sanitize_ascending raw : ascending (sanitize raw).
Proof. apply (sort_sorted ev_startTime). Qed.

Lemma sanitize_members_fixed raw t : In t (sanitize raw) -> extend t = t.
Proof.
  intros H. apply (Permutation_in _ (sanitize_perm raw)) in H.
  apply in_map_iff in H. destruct H as [t0 [<- _]]. apply extend_idem.
Qed.

Lemma map_fixed (f : TimelineEvent -> TimelineEvent) l :
  (forall t, In t l -> f t = t) -> map f l = l.
Proof.
  induction l as [|a l IH]; simpl; intros H; auto.
  rewrite H by now left. rewrite IH; auto.
Qed.

End SanitizeFacts.

Module SanitizeClaims.
Import Sanitize SanitizeFacts.

(** Scenario A of the specification: a one-second caption is extended to
    two seconds. *)
Example scenario_A :
  sanitize [mkEvent "e1" 0 1 "Hi" caption None]
  = [mkEvent "e1" 0 (0 + 2) "Hi" caption None].
Proof. reflexivity. Qed.

Example sanitize_sorts_and_extends :
  map (fun t => (id t, ev_startTime t, ev_endTime t))
    (sanitize [mkEvent "b" 5 9 "late" zoom None;
               mkEvent "a" 1 (3 # 2) "early" caption None])
  = [("a"%string, 1, 1 + 2); ("b"%string, 5, 9)].
Proof. reflexivity. Qed.

(** C1: the sanitized list is the raw list with every event passed
    through the minimum-duration step, reordered; that step sets
    [endTime = startTime + 2.0] on an event shorter than 2.0 and keeps
    its [startTime], returns an event of duration at least 2.0 as it
    is, and the result is in ascending order of [startTime]. *)
Theorem sanitize_min_duration_sorted :
  forall raw : list TimelineEvent,
    Permutation (sanitize raw) (map extend raw)
    /\ (forall t : TimelineEvent,
          (ev_endTime t - ev_startTime t < 2 ->
             ev_endTime (extend t) = ev_startTime t + 2
             /\ ev_startTime (extend t) = ev_startTime t)
          /\ (2 <= ev_endTime t - ev_startTime t -> extend t = t))
    /\ ascending (sanitize raw).
Proof.
  intros raw. split; [apply sanitize_perm | split].
  - intros t. split; intros H.
    + rewrite (extend_short t H). split; reflexivity.
    + now apply extend_long.
  - apply sanitize_ascending.
Qed.

(** C7: sanitizing a sanitized list returns it unchanged. *)
Theorem sanitize_idempotent :
  forall raw : list TimelineEvent,
    sanitize (sanitize raw) = sanitize raw.
Proof.
  intros raw. unfold sanitize at 1.
  rewrite (map_fixed extend (sanitize raw)).
  - apply (sort_fixed ev_startTime), sanitize_ascending.
  - apply sanitize_members_fixed.
Qed.

End SanitizeClaims.

(** ** Activity queries *)

Section FindFacts.
Context {A : Type}.
Variable p : A -> bool.
Variable P : A -> Prop.
Hypothesis p_spec : forall a, p a = true <-> P a.

Lemma find_FirstMatch (l : list A) : FirstMatch P l (find p l).
Proof.
  induction l as [|a l IH]; simpl.
  - constructor.
  - destruct (p a) eqn:E; simpl.
    + split; [now apply p_spec |].
      exists [], l. split; [reflexivity | constructor].
    + assert (~ P a) as N by (rewrite <- p_spec; congruence).
      unfold FirstMatch in IH. destruct (find p l) as [c|].
      * destruct IH as [Pc [before [after [-> Hb]]]].
        split; [assumption |].
        exists (a :: before), after. split; [reflexivity | now constructor].
      * now constructor.
Qed.
End FindFacts.

Lemma activeAt_within {A : Type} `{Timed A} (time : Q) (e : A) :
  activeAt time e = true <-> within time e.
Proof.
  unfold activeAt, within.
  rewrite andb_true_iff, !Qle_bool_iff. reflexivity.
Qed.

Lemma EventType_eqb_eq (a b : EventType) : EventType_eqb a b = true <-> a = b.
Proof. destruct a, b; simpl; split; intro; congruence. Qed.

Module ActivityClaims.
Import Fixtures.

(** Scenario B of the specification: two captions active at [t = 2]. *)
Example scenario_B :
  activeEvent 2 [captionA; captionB] = Some captionA
  /\ exportCaption 2 [captionA; captionB] = Some captionA
  /\ activeEvent 2 [captionB; captionA] = Some captionB
  /\ activeEvent 5 [captionA; captionB] = None.
Proof. repeat split. Qed.

(** C3: each of the four activity queries of the editor (the subtitle
    and the event query of the preview, its zoom query, and the caption
    query of the export compositor) returns at most one entry; the entry
    it returns has [startTime <= t <= endTime] and is the first such
    entry of the list, whatever number of entries is active at [t]; it
    returns nothing only when no entry qualifies. *)
Theorem active_query_first_match :
  forall (t : Q) (timeline : list TimelineEvent) (subtitles : list Subtitle),
    FirstMatch (within t) subtitles (activeSubtitle t subtitles)
    /\ FirstMatch (within t) timeline (activeEvent t timeline)
    /\ FirstMatch (fun e => type e = zoom /\ within t e) timeline
         (activeZoom t timeline)
    /\ FirstMatch (fun e => within t e /\ type e = caption) timeline
         (exportCaption t timeline).
Proof.
  intros t timeline subtitles. repeat split.
  - apply find_FirstMatch. intros s. apply activeAt_within.
  - apply find_FirstMatch. intros e. apply activeAt_within.
  - apply find_FirstMatch. intros e.
    rewrite andb_true_iff, EventType_eqb_eq, activeAt_within. reflexivity.
  - apply find_FirstMatch. intros e.
    rewrite andb_true_iff, EventType_eqb_eq, activeAt_within. reflexivity.
Qed.

End ActivityClaims.

(** ** Live preview *)

Module PreviewClaims.
Import Preview Fixtures.

Lemma syncAudio_rate isVoiceoverEnabled time a :
  exists a',
    syncAudio isVoiceoverEnabled time (Some a) = Some a'
    /\ playbackRate a' = playbackRate a
    /\ paused a' = paused a.
Proof.
  unfold syncAudio.
  destruct (isVoiceoverEnabled && negb (paused a) && _)%bool.
  - exists (set_currentTime a time). repeat split.
  - exists a. repeat split.
Qed.

Lemma drift_test_false (d : Q) : d <= 3 # 10 -> Qle_bool d (3 # 10) = true.
Proof. intros H. now apply Qle_bool_iff. Qed.

Lemma drift_test_true (d : Q) : 3 # 10 < d -> Qle_bool d (3 # 10) = false.
Proof.
  intros H. destruct (Qle_bool d (3 # 10)) eqn:E; auto.
  apply Qle_bool_iff in E. lra.
Qed.

(** C4: on a preview tick (not exporting) with an audio element [a]:
    when the voice-over is enabled, the audio is playing and its clock is
    more than 0.3 s away from the video time, the audio clock becomes the
    video time; when the distance is at most 0.3 s the audio element is
    left as it was; in every case its playback rate (and its paused flag)
    is what it was before the tick. *)
Theorem tick_snaps_audio_beyond_threshold :
  forall (timeline : list TimelineEvent) (subtitles : list Subtitle)
         (isVoiceoverEnabled : bool) (vid : MediaElement) (st : State)
         (a : MediaElement),
    aud st = Some a ->
    let st' :=
      handleTimeUpdate timeline subtitles isVoiceoverEnabled false vid st in
    let time := currentTime vid in
    (isVoiceoverEnabled = true -> paused a = false ->
     3 # 10 < Qabs (currentTime a - time) ->
     aud st' = Some (set_currentTime a time)
     /\ currentTime (set_currentTime a time) = time)
    /\ (Qabs (currentTime a - time) <= 3 # 10 -> aud st' = Some a)
    /\ (exists a', aud st' = Some a'
                   /\ playbackRate a' = playbackRate a
                   /\ paused a' = paused a).
Proof.
  intros timeline subtitles isVoiceoverEnabled vid st a Ha st' time.
  assert (aud st' = syncAudio isVoiceoverEnabled time (Some a)) as ->
    by (rewrite <- Ha; reflexivity).
  split; [| split].
  - intros -> Hp Hd. unfold syncAudio.
    rewrite Hp, (drift_test_true _ Hd). simpl. split; reflexivity.
  - intros Hd. unfold syncAudio.
    rewrite (drift_test_false _ Hd), andb_false_r. reflexivity.
  - apply syncAudio_rate.
Qed.

(** Scenario E of the specification: the audio clock is 0.5 s ahead; one
    tick snaps it, the next tick leaves it alone. *)
Lemma tick_snaps_audio_beyond_threshold_witness :
  let a := mkMedia (5 # 2) false false 1 0 0 in
  let st := mkState 0 None None (zoomFor None) (Some a) in
  let st1 := handleTimeUpdate [] [] true false (tick 2) st in
  let st2 := handleTimeUpdate [] [] true false (tick 2) st1 in
  aud st1 = Some (mkMedia 2 false false 1 0 0) /\ aud st2 = aud st1.
Proof.
  intros a st st1 st2. split.
  - apply (tick_snaps_audio_beyond_threshold [] [] true (tick 2) st a eq_refl);
      reflexivity.
  - apply (tick_snaps_audio_beyond_threshold [] [] true (tick 2) st1
             (mkMedia 2 false false 1 0 0) eq_refl).
    discriminate.
Defined.



End PreviewClaims.

(** ** Double-precision rounding *)

Module DoubleFacts.
Import Double.

Lemma two_nonzero : ~ 2 == 0.
Proof. discriminate. Qed.

Lemma pow2_pos z : 0 < pow2 z.
Proof. apply Qpower_0_lt. reflexivity. Qed.

Lemma pow2_add a b : pow2 (a + b) == pow2 a * pow2 b.
Proof. apply Qpower_plus, two_nonzero. Qed.

Lemma pow2_le a b : (a <= b)%Z -> pow2 a <= pow2 b.
Proof. intros H. apply Qpower_le_compat_l; [exact H | discriminate]. Qed.

Lemma pow2_lt a b : (a < b)%Z -> pow2 a < pow2 b.
Proof. intros H. apply Qpower_lt_compat_l; [exact H | reflexivity]. Qed.

Lemma pow2_lt_inv a b : pow2 a < pow2 b -> (a < b)%Z.
Proof.
  intros H. destruct (Z_lt_le_dec a b) as [L|L]; [exact L |].
  apply pow2_le in L. lra.
Qed.

Lemma pow2_Z n : (0 <= n)%Z -> pow2 n == inject_Z (2 ^ n).
Proof. intros H. unfold pow2. now rewrite (Zpower_Qpower 2 n H). Qed.

Lemma pow2_sub a b : pow2 (a - b) == pow2 a / pow2 b.
Proof.
  unfold Z.sub. rewrite pow2_add. unfold pow2 at 2.
  rewrite Qpower_opp. reflexivity.
Qed.

Lemma div_pow2_le x y e : x <= y -> x / pow2 e <= y / pow2 e.
Proof.
  intros H. unfold Qdiv. apply Qmult_le_compat_r; [exact H |].
  apply Qlt_le_weak, Qinv_lt_0_compat, pow2_pos.
Qed.

Lemma mul_div_pow2 x e : x / pow2 e * pow2 e == x.
Proof. field. pose proof (pow2_pos e). lra. Qed.

(** Rounding to an integer. *)
Lemma rne_comp x y : x == y -> rne x = rne y.
Proof.
  intros H. unfold rne. rewrite (Qfloor_comp _ _ H).
  assert (x - inject_Z (Qfloor y) == y - inject_Z (Qfloor y)) as E
    by (rewrite H; reflexivity).
  now rewrite E.
Qed.

Lemma rne_Z z : rne (inject_Z z) = z.
Proof.
  unfold rne. rewrite Qfloor_Z.
  assert (Qcompare (inject_Z z - inject_Z z) (1 # 2) = Lt) as ->; [| reflexivity].
  apply Qlt_alt. assert (inject_Z z - inject_Z z == 0) as -> by ring.
  reflexivity.
Qed.

Lemma rne_cases x :
  (rne x = Qfloor x /\ x - inject_Z (Qfloor x) <= 1 # 2)
  \/ (rne x = (Qfloor x + 1)%Z /\ 1 # 2 <= x - inject_Z (Qfloor x)).
Proof.
  unfold rne. destruct (Qcompare_spec (x - inject_Z (Qfloor x)) (1 # 2)) as [E|L|G].
  - destruct (Z.even (Qfloor x)); [left | right]; split; auto; rewrite E; apply Qle_refl.
  - left. split; [reflexivity | now apply Qlt_le_weak].
  - right. split; [reflexivity | now apply Qlt_le_weak].
Qed.

Lemma rne_mono x y : x <= y -> (rne x <= rne y)%Z.
Proof.
  intros H. pose proof (Qfloor_resp_le _ _ H) as Hf.
  destruct (Z.eq_dec (Qfloor x) (Qfloor y)) as [E|N].
  - unfold rne. rewrite <- E.
    destruct (Qcompare_spec (x - inject_Z (Qfloor x)) (1 # 2)) as [Ex|Lx|Gx];
    destruct (Qcompare_spec (y - inject_Z (Qfloor x)) (1 # 2)) as [Ey|Ly|Gy];
      try lia; try (destruct (Z.even (Qfloor x)); lia); lra.
  - destruct (rne_cases x) as [[-> _]|[-> _]], (rne_cases y) as [[-> _]|[-> _]]; lia.
Qed.

Lemma rne_nonneg x : 0 <= x -> (0 <= rne x)%Z.
Proof. intros H. rewrite <- (rne_Z 0). now apply rne_mono. Qed.

(** The binary exponent. *)
Lemma Zlog2_bounds n : (0 < n)%Z -> inject_Z (2 ^ Z.log2 n) <= inject_Z n /\ inject_Z n < inject_Z (2 ^ (Z.log2 n + 1)).
Proof.
  intros H. destruct (Z.log2_spec n H) as [L U].
  rewrite <- Zle_Qle, <- Zlt_Qlt. replace (Z.log2 n + 1)%Z with (Z.succ (Z.log2 n)) by lia. split; assumption.
Qed.

Lemma ilog2_spec q : 0 < q -> pow2 (ilog2 q) <= q /\ q < pow2 (ilog2 q + 1).
Proof.
  intros Hq. destruct q as [n d].
  assert (0 < n)%Z as Hn by (unfold Qlt in Hq; simpl in Hq; lia).
  unfold ilog2. cbn [Qnum Qden].
  set (a := Z.log2 n). set (b := Z.log2 (Z.pos d)).
  destruct (Zlog2_bounds n Hn) as [La Ua]. fold a in La, Ua.
  destruct (Zlog2_bounds (Z.pos d) eq_refl) as [Lb Ub]. fold b in Lb, Ub.
  assert (0 <= a)%Z as Ha by apply Z.log2_nonneg.
  assert (0 <= b)%Z as Hb by apply Z.log2_nonneg.
  rewrite <- pow2_Z in La, Ua, Lb, Ub by lia.
  assert (n # d == inject_Z n / inject_Z (Z.pos d)) as Eq by apply Qmake_Qdiv.
  assert (0 < inject_Z (Z.pos d)) as Hd by reflexivity.
  pose proof (pow2_pos a) as Pa. pose proof (pow2_pos b) as Pb.
  assert (pow2 (a - b - 1) < n # d) as Low.
  { rewrite Eq. apply Qlt_shift_div_l; [exact Hd |].
    replace (a - b - 1)%Z with (a - (b + 1))%Z by lia. rewrite pow2_sub.
    pose proof (pow2_pos (b + 1)) as Pb1.
    apply Qlt_le_trans with (pow2 a / pow2 (b + 1) * pow2 (b + 1)).
    - apply Qmult_lt_l; [| exact Ub].
      unfold Qdiv. apply Qmult_lt_0_compat; [exact Pa |]. now apply Qinv_lt_0_compat.
    - rewrite mul_div_pow2. exact La. }
  assert (n # d < pow2 (a - b + 1)) as High.
  { rewrite Eq. apply Qlt_shift_div_r; [exact Hd |].
    replace (a - b + 1)%Z with (a + 1 - b)%Z by lia. rewrite pow2_sub.
    apply Qlt_le_trans with (pow2 (a + 1) / pow2 b * pow2 b).
    - rewrite mul_div_pow2. exact Ua.
    - apply Qmult_le_l; [| exact Lb].
      unfold Qdiv. apply Qmult_lt_0_compat; [apply pow2_pos |]. now apply Qinv_lt_0_compat. }
  destruct (Qle_bool (pow2 (a - b)) (n # d)) eqn:E.
  - apply Qle_bool_iff in E. split; assumption.
  - replace (a - b - 1 + 1)%Z with (a - b)%Z by lia. split; [now apply Qlt_le_weak |].
    destruct (Qlt_le_dec (n # d) (pow2 (a - b))) as [L|G]; [exact L |].
    apply Qle_bool_iff in G. congruence.
Qed.

Lemma ilog2_unique q a : pow2 a <= q -> q < pow2 (a + 1) -> 0 < q -> ilog2 q = a.
Proof.
  intros L U Hq. destruct (ilog2_spec q Hq) as [L' U'].
  assert (pow2 a < pow2 (ilog2 q + 1)) as H1 by lra.
  assert (pow2 (ilog2 q) < pow2 (a + 1)) as H2 by lra.
  apply pow2_lt_inv in H1, H2. lia.
Qed.

Lemma ilog2_comp x y : 0 < x -> x == y -> ilog2 x = ilog2 y.
Proof.
  intros Hx E. assert (0 < y) as Hy by (rewrite <- E; exact Hx).
  destruct (ilog2_spec y Hy) as [L U].
  apply ilog2_unique; rewrite ?E; assumption.
Qed.

Lemma ilog2_mono x y : 0 < x -> x <= y -> (ilog2 x <= ilog2 y)%Z.
Proof.
  intros Hx H. assert (0 < y) as Hy by lra.
  destruct (ilog2_spec x Hx) as [L _], (ilog2_spec y Hy) as [_ U].
  assert (pow2 (ilog2 x) < pow2 (ilog2 y + 1)) as H1 by lra.
  apply pow2_lt_inv in H1. lia.
Qed.

(** Rounding a positive rational. *)
Lemma exponent_mono x y : 0 < x -> x <= y -> (exponent x <= exponent y)%Z.
Proof. intros Hx H. unfold exponent. pose proof (ilog2_mono x y Hx H). lia. Qed.

Lemma exponent_comp x y : 0 < x -> x == y -> exponent x = exponent y.
Proof. intros Hx E. unfold exponent. now rewrite (ilog2_comp x y Hx E). Qed.

Lemma roundPos_comp x y : 0 < x -> x == y -> roundPos x == roundPos y.
Proof.
  intros Hx E. unfold roundPos. rewrite (exponent_comp x y Hx E).
  assert (x / pow2 (exponent y) == y / pow2 (exponent y)) as E' by (rewrite E; reflexivity).
  now rewrite (rne_comp _ _ E').
Qed.

Lemma roundPos_nonneg x : 0 < x -> 0 <= roundPos x.
Proof.
  intros Hx. unfold roundPos. apply Qmult_le_0_compat.
  - change 0 with (inject_Z 0). rewrite <- Zle_Qle. apply rne_nonneg.
    apply Qle_shift_div_l; [apply pow2_pos | lra].
  - apply Qlt_le_weak, pow2_pos.
Qed.

Lemma scaled_le_pow2 x k e :
  x <= pow2 k -> (e <= k)%Z ->
  inject_Z (rne (x / pow2 e)) * pow2 e <= pow2 k.
Proof.
  intros Hx Hek.
  assert (pow2 k == inject_Z (2 ^ (k - e)) * pow2 e) as Ek.
  { rewrite <- pow2_Z by lia. rewrite <- pow2_add. now replace (k - e + e)%Z with k by lia. }
  rewrite Ek. apply Qmult_le_compat_r; [| apply Qlt_le_weak, pow2_pos].
  rewrite <- Zle_Qle. rewrite <- (rne_Z (2 ^ (k - e))).
  apply rne_mono. rewrite <- pow2_Z by lia. rewrite pow2_sub. now apply div_pow2_le.
Qed.

Lemma scaled_ge_pow2 x k e :
  pow2 k <= x -> (e <= k)%Z ->
  pow2 k <= inject_Z (rne (x / pow2 e)) * pow2 e.
Proof.
  intros Hx Hek.
  assert (pow2 k == inject_Z (2 ^ (k - e)) * pow2 e) as Ek.
  { rewrite <- pow2_Z by lia. rewrite <- pow2_add. now replace (k - e + e)%Z with k by lia. }
  rewrite Ek. apply Qmult_le_compat_r; [| apply Qlt_le_weak, pow2_pos].
  rewrite <- Zle_Qle. rewrite <- (rne_Z (2 ^ (k - e))) at 1.
  apply rne_mono. rewrite <- pow2_Z by lia. rewrite pow2_sub. now apply div_pow2_le.
Qed.

Lemma roundPos_mono x y : 0 < x -> x <= y -> roundPos x <= roundPos y.
Proof.
  intros Hx H. assert (0 < y) as Hy by lra.
  pose proof (exponent_mono x y Hx H) as He.
  destruct (Z.eq_dec (exponent x) (exponent y)) as [E|N].
  - unfold roundPos. rewrite E.
    apply Qmult_le_compat_r; [| apply Qlt_le_weak, pow2_pos].
    rewrite <- Zle_Qle. apply rne_mono. now apply div_pow2_le.
  - assert (exponent x < exponent y)%Z as Hlt by lia.
    destruct (ilog2_spec x Hx) as [_ Ux], (ilog2_spec y Hy) as [Ly _].
    assert (ilog2 x < ilog2 y)%Z as Hl by (unfold exponent in *; lia).
    assert (exponent y = ilog2 y - 52)%Z as Ey by (unfold exponent in *; lia).
    apply Qle_trans with (pow2 (ilog2 y)).
    + unfold roundPos. apply scaled_le_pow2; [| unfold exponent in *; lia].
      apply Qle_trans with (pow2 (ilog2 x + 1)); [lra | apply pow2_le; lia].
    + unfold roundPos. apply scaled_ge_pow2; [exact Ly | lia].
Qed.

(** Rounding to a double: compatible with [==], monotone. *)
#[export] Instance round64_comp : Proper (Qeq ==> Qeq) round64.
Proof.
  intros x y E. unfold round64. rewrite <- E.
  destruct (Qcompare_spec x 0) as [Z|L|G].
  - reflexivity.
  - apply Qopp_comp, roundPos_comp; [lra | now rewrite E].
  - now apply roundPos_comp.
Qed.

Lemma round64_0 : round64 0 == 0.
Proof. reflexivity. Qed.

Lemma round64_nonneg x : 0 <= x -> 0 <= round64 x.
Proof.
  intros H. unfold round64. destruct (Qcompare_spec x 0) as [Z|L|G]; [lra | lra |].
  now apply roundPos_nonneg.
Qed.

Lemma round64_nonpos x : x <= 0 -> round64 x <= 0.
Proof.
  intros H. unfold round64. destruct (Qcompare_spec x 0) as [Z|L|G]; [lra | | lra].
  assert (0 <= roundPos (- x)) by (apply roundPos_nonneg; lra). lra.
Qed.

Lemma round64_mono x y : x <= y -> round64 x <= round64 y.
Proof.
  intros H. destruct (Qlt_le_dec x 0) as [Lx|Gx], (Qlt_le_dec y 0) as [Ly|Gy].
  - unfold round64.
    destruct (Qcompare_spec x 0) as [Zx|Lx'|Gx']; [lra | | lra].
    destruct (Qcompare_spec y 0) as [Zy|Ly'|Gy']; [lra | | lra].
    assert (roundPos (- y) <= roundPos (- x)) by (apply roundPos_mono; lra). lra.
  - apply Qle_trans with 0; [apply round64_nonpos; lra | now apply round64_nonneg].
  - lra.
  - unfold round64.
    destruct (Qcompare_spec x 0) as [Zx|Lx'|Gx'];
    destruct (Qcompare_spec y 0) as [Zy|Ly'|Gy']; try lra.
    + apply roundPos_nonneg; lra.
    + now apply roundPos_mono.
Qed.

(** Doubles are fixed, and two of them are never closer than one unit in
    the last place. *)
Lemma representable_pos_form q :
  0 < q -> representable q ->
  q == inject_Z (rne (q / pow2 (exponent q))) * pow2 (exponent q).
Proof.
  intros Hq R. unfold representable, round64 in R.
  destruct (Qcompare_spec q 0) as [Z|L|G]; [lra | lra |].
  symmetry. exact R.
Qed.

Lemma round64_exact m k :
  (0 < m < 2 ^ 53)%Z -> (-1074 <= k)%Z ->
  representable (inject_Z m * pow2 k).
Proof.
  intros Hm Hk. set (q := inject_Z m * pow2 k).
  assert (0 < inject_Z m) as Hm0 by (change 0 with (inject_Z 0); rewrite <- Zlt_Qlt; lia).
  pose proof (pow2_pos k) as Pk.
  assert (0 < q) as Hq by (apply Qmult_lt_0_compat; assumption).
  destruct (Zlog2_bounds m (proj1 Hm)) as [Lm Um].
  assert (0 <= Z.log2 m)%Z as Hl by apply Z.log2_nonneg.
  assert (Z.log2 m < 53)%Z as Hl53 by (apply Z.log2_lt_pow2; lia).
  rewrite <- pow2_Z in Lm, Um by lia.
  assert (ilog2 q = Z.log2 m + k)%Z as El.
  { apply ilog2_unique; [| | exact Hq]; subst q.
    - rewrite pow2_add. apply Qmult_le_compat_r; [exact Lm | lra].
    - replace (Z.log2 m + k + 1)%Z with (Z.log2 m + 1 + k)%Z by lia.
      rewrite pow2_add. apply Qmult_lt_compat_r; [exact Pk | exact Um]. }
  unfold representable, round64.
  destruct (Qcompare_spec q 0) as [Z|L|G]; [lra | lra |].
  unfold roundPos. set (e := exponent q).
  assert (e <= k)%Z as Hek by (subst e; unfold exponent; lia).
  assert (q / pow2 e == inject_Z (m * 2 ^ (k - e))) as Es.
  { subst q. rewrite inject_Z_mult, <- pow2_Z by lia. rewrite pow2_sub.
    field. pose proof (pow2_pos e). lra. }
  rewrite (rne_comp _ _ Es), rne_Z. rewrite <- Es. apply mul_div_pow2.
Qed.

Lemma inject_Z_lt_pred a b : (a < b)%Z -> inject_Z a <= inject_Z b - 1.
Proof.
  intros H.
  assert (inject_Z a <= inject_Z (b - 1)) as H1 by (rewrite <- Zle_Qle; lia).
  assert (inject_Z (b - 1) == inject_Z b - 1) as H2
    by (unfold Z.sub; rewrite inject_Z_plus, inject_Z_opp; reflexivity).
  lra.
Qed.

Lemma below_pow2_53 : 1 - pow2 (-53) == inject_Z (2 ^ 53 - 1) * pow2 (-53).
Proof. vm_compute. reflexivity. Qed.

Lemma ratio_below_one pos e :
  representable pos -> representable e -> 0 <= pos -> pos < e ->
  pos / e <= 1 - pow2 (-53).
Proof.
  intros Rp Re Hp Hlt. assert (0 < e) as He by lra.
  apply Qle_shift_div_r; [exact He |].
  destruct (Qeq_dec pos 0) as [Z|NZ].
  { rewrite Z. apply Qmult_le_0_compat; [discriminate | lra]. }
  assert (0 < pos) as Hpos by lra.
  pose proof (representable_pos_form pos Hpos Rp) as Fp.
  pose proof (representable_pos_form e He Re) as Fe.
  set (ep := exponent pos) in *. set (ee := exponent e) in *.
  set (P := rne (pos / pow2 ep)) in *. set (M := rne (e / pow2 ee)) in *.
  pose proof (pow2_pos ep) as Pep. pose proof (pow2_pos ee) as Pee.
  assert (ep <= ee)%Z as Hle by (apply exponent_mono; lra).
  destruct (ilog2_spec pos Hpos) as [Lp Up], (ilog2_spec e He) as [Le Ue].
  assert (pow2 (-53) * pow2 (ee + 53) == pow2 ee) as Sc
    by (rewrite <- pow2_add; now replace (-53 + (ee + 53))%Z with ee by lia).
  assert (pow2 (-53) * pow2 (ep + 53) == pow2 ep) as Scp
    by (rewrite <- pow2_add; now replace (-53 + (ep + 53))%Z with ep by lia).
  pose proof (pow2_pos (-53)) as P53.
  destruct (Z.eq_dec ep ee) as [E|N].
  -     assert (P < M)%Z as HPM.
    { rewrite Zlt_Qlt. apply Qmult_lt_r with (pow2 ee); [exact Pee |].
      rewrite <- Fe. rewrite <- E. rewrite <- Fp. exact Hlt. }
    assert (pos <= e - pow2 ee) as H1.
    { rewrite Fp, Fe, E.
      pose proof (inject_Z_lt_pred P M HPM) as HQ.
      nra. }
    assert (e < pow2 (ee + 53)) as H2.
    { apply Qlt_le_trans with (pow2 (ilog2 e + 1)); [exact Ue |].
      apply pow2_le. subst ee. unfold exponent. lia. }
    assert (e * pow2 (-53) < pow2 ee) as H3 by nra.
    nra.
  - assert (ep < ee)%Z as Hlt' by lia.
    assert (ee = ilog2 e - 52)%Z as Eee by (subst ee ep; unfold exponent in *; lia).
    assert (pos < pow2 (ep + 53)) as H1.
    { apply Qlt_le_trans with (pow2 (ilog2 pos + 1)); [exact Up |].
      apply pow2_le. subst ep. unfold exponent. lia. }
    assert (P < 2 ^ 53)%Z as HP.
    { rewrite Zlt_Qlt. apply Qmult_lt_r with (pow2 ep); [exact Pep |].
      rewrite <- Fp. rewrite <- pow2_Z by lia. rewrite <- pow2_add.
      now replace (53 + ep)%Z with (ep + 53)%Z by lia. }
    assert (pos <= pow2 (ep + 53) - pow2 ep) as H2.
    { rewrite Fp. 
      pose proof (inject_Z_lt_pred P (2 ^ 53) HP) as HQ.
      assert (pow2 (ep + 53) == inject_Z (2 ^ 53) * pow2 ep) as EB.
      { rewrite <- pow2_Z by lia. rewrite <- pow2_add. now replace (53 + ep)%Z with (ep + 53)%Z by lia. }
      rewrite EB. nra. }
    assert (pow2 (ep + 53) <= e) as H3.
    { apply Qle_trans with (pow2 (ilog2 e)); [apply pow2_le; lia | exact Le]. }
    nra.
Qed.

Lemma top_of_unit_interval : representable (1 - pow2 (-53)).
Proof.
  unfold representable. rewrite below_pow2_53.
  apply (round64_exact (2 ^ 53 - 1) (-53)); lia.
Qed.

Lemma hundred_times_below_one : round64 ((1 - pow2 (-53)) * 100) < 100.
Proof. vm_compute. reflexivity. Qed.

(** A quotient of two doubles below one, times 100, stays below 100 after
    both roundings. *)
Lemma percent_below_100 pos e :
  representable pos -> representable e -> 0 <= pos -> pos < e ->
  mul (div pos e) 100 < 100.
Proof.
  intros Rp Re Hp Hlt. unfold mul, div.
  apply Qle_lt_trans with (round64 ((1 - pow2 (-53)) * 100));
    [| exact hundred_times_below_one].
  apply round64_mono. apply Qmult_le_compat_r; [| discriminate].
  apply Qle_trans with (round64 (1 - pow2 (-53))).
  - apply round64_mono. now apply ratio_below_one.
  - pose proof top_of_unit_interval as T. unfold representable in T.
    rewrite T. apply Qle_refl.
Qed.

Lemma sub_zero q : representable q -> sub q 0 == q.
Proof.
  intros R. unfold sub. assert (q - 0 == q) as E by ring.
  rewrite E. exact R.
Qed.

End DoubleFacts.

(** ** The export compositor *)

Module RenderFacts.
Import Render.

Lemma stop_false endTime (v : MediaElement) :
  (Qle_bool endTime (currentTime v) || ended v)%bool = false <->
  currentTime v < endTime /\ ended v = false.
Proof.
  rewrite orb_false_iff. split; intros [H1 H2]; split; auto.
  - destruct (Qlt_le_dec (currentTime v) endTime) as [L|L]; auto.
    apply Qle_bool_iff in L. congruence.
  - destruct (Qle_bool endTime (currentTime v)) eqn:E; auto.
    apply Qle_bool_iff in E. lra.
Qed.

Lemma drawFrame_composes b p startTime endTime format isGifMode v :
  currentTime v < endTime -> ended v = false ->
  drawFrame b p startTime endTime format isGifMode v
  = Drawn (frameOps b p format isGifMode v)
      (if negb isGifMode
       then Some (progressAt startTime endTime (currentTime v)) else None).
Proof.
  intros H1 H2. unfold drawFrame.
  now rewrite (proj2 (stop_false endTime v) (conj H1 H2)).
Qed.




Lemma frameOps_gif_no_subtitle b p format v :
  subtitleTexts (frameOps b p format true v) = [].
Proof.
  unfold frameOps. destruct (getContext2d b); [| reflexivity].
  unfold subtitleTexts. cbn [flat_map app drawSubtitle negb].
  rewrite app_nil_r.
  now destruct (exportCaption (currentTime v) (timeline p)).
Qed.

(** Cover fit: the scaled source is at least as large as the output in
    both directions and meets it exactly in one. *)
Lemma cover_scale (outW outH srcW srcH : Q) :
  0 < srcW -> 0 < srcH ->
  let scale := Qmax (outW / srcW) (outH / srcH) in
  outW <= srcW * scale /\ outH <= srcH * scale
  /\ (srcW * scale == outW \/ srcH * scale == outH).
Proof.
  intros Hw Hh scale.
  assert (srcW * (outW / srcW) == outW) as Ea by (field; lra).
  assert (srcH * (outH / srcH) == outH) as Eb by (field; lra).
  subst scale. revert Ea Eb.
  generalize (outW / srcW) (outH / srcH). intros a c Ea Eb.
  destruct (Q.max_spec a c) as [[L E]|[L E]]; rewrite E.
  - repeat split; [nra | lra | right; assumption].
  - repeat split; [lra | nra | left; assumption].
Qed.

Lemma composited_before endTime ticks v :
  In v (composited endTime ticks) -> currentTime v < endTime /\ ended v = false.
Proof.
  induction ticks as [|u ticks IH]; simpl; [tauto |].
  destruct (_ || _)%bool eqn:E; simpl; [tauto |].
  intros [<- | H]; [now apply stop_false | auto].
Qed.

Lemma renderLoop_reports b p startTime endTime format ticks :
  reports (renderLoop b p startTime endTime format false ticks)
  = map (fun v => progressAt startTime endTime (currentTime v))
      (composited endTime ticks).
Proof.
  induction ticks as [|v ticks IH]; simpl; auto.
  unfold drawFrame. destruct (_ || _)%bool; simpl; [reflexivity |].
  now rewrite IH.
Qed.

Lemma renderLoop_reports_gif b p startTime endTime format ticks :
  reports (renderLoop b p startTime endTime format true ticks) = [].
Proof.
  induction ticks as [|v ticks IH]; simpl; auto.
  unfold drawFrame. destruct (_ || _)%bool; simpl; auto.
Qed.

Lemma renderLoop_frames b p startTime endTime format isGifMode ticks :
  frames (renderLoop b p startTime endTime format isGifMode ticks)
  = map (frameOps b p format isGifMode) (composited endTime ticks).
Proof.
  induction ticks as [|v ticks IH]; simpl; auto.
  unfold drawFrame. destruct (_ || _)%bool; simpl; [reflexivity |].
  now rewrite IH.
Qed.

(** The loop stops exactly when some callback meets the stop condition. *)
Lemma renderLoop_stopped b p startTime endTime format isGifMode ticks :
  stopped (renderLoop b p startTime endTime format isGifMode ticks)
  = existsb (fun v => Qle_bool endTime (currentTime v) || ended v) ticks.
Proof.
  induction ticks as [|v ticks IH]; simpl; auto.
  unfold drawFrame. destruct (_ || _)%bool; simpl; auto.
Qed.

Section Progress.
Variables startTime endTime : Q.
Hypothesis window : startTime < endTime.

Lemma quotient_mono (a c d : Q) : 0 <= d -> a <= c -> a / d <= c / d.
Proof.
  intros Hd H. unfold Qdiv. apply Qmult_le_compat_r; [exact H |].
  now apply Qinv_le_0_compat.
Qed.

Lemma span_nonneg : 0 <= Double.sub endTime startTime.
Proof. apply DoubleFacts.round64_nonneg. lra. Qed.

Lemma progressAt_mono (a c : Q) :
  a <= c -> (progressAt startTime endTime a <= progressAt startTime endTime c)%Z.
Proof.
  intros H. unfold progressAt, Double.mul, Double.div.
  apply Qfloor_resp_le, DoubleFacts.round64_mono.
  apply Qmult_le_compat_r; [| discriminate].
  apply DoubleFacts.round64_mono, quotient_mono; [apply span_nonneg |].
  apply DoubleFacts.round64_mono. lra.
Qed.

Lemma progressAt_nonneg (a : Q) :
  startTime <= a -> (0 <= progressAt startTime endTime a)%Z.
Proof.
  intros H. unfold progressAt, Double.mul, Double.div.
  rewrite <- (Qfloor_Z 0). apply Qfloor_resp_le.
  apply DoubleFacts.round64_nonneg.
  apply Qmult_le_0_compat; [| discriminate].
  apply DoubleFacts.round64_nonneg.
  unfold Qdiv. apply Qmult_le_0_compat.
  - apply DoubleFacts.round64_nonneg. lra.
  - apply Qinv_le_0_compat, span_nonneg.
Qed.

Lemma composited_sorted (ticks : list MediaElement) :
  Sorted (fun u v => currentTime u <= currentTime v) ticks ->
  Sorted (fun u v => currentTime u <= currentTime v) (composited endTime ticks).
Proof.
  induction 1 as [|u ticks Hs IH Hhd]; simpl; [constructor |].
  destruct (_ || _)%bool; [constructor |].
  constructor; auto.
  destruct Hhd as [|w ticks Huw]; simpl; [constructor |].
  destruct (_ || _)%bool; now constructor.
Qed.

Lemma reports_sorted (l : list MediaElement) :
  Sorted (fun u v => currentTime u <= currentTime v) l ->
  Sorted Z.le (map (fun v => progressAt startTime endTime (currentTime v)) l).
Proof.
  induction 1 as [|u l Hs IH Hhd]; simpl; constructor; auto.
  destruct Hhd; simpl; constructor. now apply progressAt_mono.
Qed.

End Progress.

(** A full export runs from 0: the positions and the end are doubles, and
    a position before the end gives at most 99. *)
Lemma progressAt_below_100 (endTime a : Q) :
  Double.representable a -> Double.representable endTime ->
  0 <= a -> a < endTime ->
  (progressAt 0 endTime a <= 99)%Z.
Proof.
  intros Ra Re Ha Hlt. unfold progressAt.
  assert (Double.mul (Double.div (Double.sub a 0) (Double.sub endTime 0)) 100
          < 100) as Hr.
  { assert (Double.div (Double.sub a 0) (Double.sub endTime 0)
            == Double.div a endTime) as E.
    { unfold Double.div. apply DoubleFacts.round64_comp.
      now rewrite (DoubleFacts.sub_zero a Ra), (DoubleFacts.sub_zero endTime Re). }
    assert (Double.mul (Double.div (Double.sub a 0) (Double.sub endTime 0)) 100
            == Double.mul (Double.div a endTime) 100) as E'.
    { unfold Double.mul. apply DoubleFacts.round64_comp. now rewrite E. }
    rewrite E'. now apply DoubleFacts.percent_below_100. }
  set (r := Double.mul _ 100) in *.
  pose proof (Qfloor_le r) as Hf.
  assert (inject_Z (Qfloor r) < inject_Z 100) as Hz
    by (apply Qle_lt_trans with r; [exact Hf | exact Hr]).
  rewrite <- Zlt_Qlt in Hz. lia.
Qed.

Lemma half_nonpos (a c : Q) : a <= c -> (a - c) / 2 <= 0.
Proof.
  intros H. unfold Qdiv.
  assert (/ 2 == 1 # 2) as -> by reflexivity. lra.
Qed.

End RenderFacts.

Module RenderClaims.
Import Render RenderFacts Fixtures.

(** C6: for a frame that is composited (the window is not over, the
    canvas has its 2D context, the source has positive dimensions) the
    first canvas call fills the whole output with [#000], the second draws
    the source at [(srcW*scale, srcH*scale)] with
    [scale = max(outW/srcW, outH/srcH)], offset by half the difference to
    the output size; the drawn source covers the output in both
    directions (no bars), fits it exactly in one, and the offsets are
    never positive (overflow is cut off evenly). *)
Theorem frame_black_then_cover_fit :
  forall (b : Browser) (p : Props) (startTime endTime : Q) (format : Format)
         (isGifMode : bool) (v : MediaElement),
    getContext2d b = true ->
    currentTime v < endTime -> ended v = false ->
    0 < videoWidth v -> 0 < videoHeight v ->
    let outW := width format in
    let outH := height format in
    let srcW := videoWidth v in
    let srcH := videoHeight v in
    let scale := Qmax (outW / srcW) (outH / srcH) in
    (exists overlays progress,
        drawFrame b p startTime endTime format isGifMode v
        = Drawn (fillRect "#000" 0 0 outW outH
                   :: drawImage ((outW - srcW * scale) / 2)
                        ((outH - srcH * scale) / 2)
                        (srcW * scale) (srcH * scale)
                   :: overlays) progress)
    /\ outW <= srcW * scale /\ outH <= srcH * scale
    /\ (srcW * scale == outW \/ srcH * scale == outH)
    /\ (outW - srcW * scale) / 2 <= 0 /\ (outH - srcH * scale) / 2 <= 0.
Proof.
  intros b p startTime endTime format isGifMode v Hctx Hlt Hend Hw Hh
    outW outH srcW srcH scale.
  destruct (cover_scale outW outH srcW srcH Hw Hh) as [Cw [Ch Cex]].
  fold scale in Cw, Ch, Cex.
  split; [| repeat split; auto using half_nonpos].
  rewrite (drawFrame_composes b p startTime endTime format isGifMode v Hlt Hend).
  unfold frameOps. rewrite Hctx. eexists. eexists. reflexivity.
Qed.

(** A 1920x1080 frame in the portrait profile: scaled to the full height,
    cut left and right. *)
Lemma frame_black_then_cover_fit_witness :
  (exists overlays progress,
      drawFrame browser props 0 10 portrait false (tick 2)
      = Drawn (fillRect "#000" 0 0 720 1280
                 :: drawImage ((720 - 1920 * Qmax (720 / 1920) (1280 / 1080)) / 2)
                      ((1280 - 1080 * Qmax (720 / 1920) (1280 / 1080)) / 2)
                      (1920 * Qmax (720 / 1920) (1280 / 1080))
                      (1080 * Qmax (720 / 1920) (1280 / 1080))
                 :: overlays) progress)
  /\ 720 <= 1920 * Qmax (720 / 1920) (1280 / 1080)
  /\ 1280 <= 1080 * Qmax (720 / 1920) (1280 / 1080).
Proof.
  destruct (frame_black_then_cover_fit browser props 0 10 portrait false
              (tick 2) eq_refl eq_refl eq_refl eq_refl eq_refl)
    as [H1 [H2 [H3 _]]].
  exact (conj H1 (conj H2 H3)).
Defined.

(** The claim of C2 fails on a ten-second window: the frame at 0.25 s
    reports 2, not 2.5; the run resolves with the reports 0, 2, 50 and
    never reports 100; [handleExportVideo] then sets the progress to 0. *)
Lemma progress_clamp_and_100_counterexample :
  (exists blob,
      outcome (renderToVideo browser props 0 10 landscape false exampleTicks)
      = Resolved blob)
  /\ progressLog (renderToVideo browser props 0 10 landscape false exampleTicks)
     = [0; 2; 50]%Z
  /\ drawFrame browser props 0 10 landscape false (tick (1 # 4))
     = Drawn (frameOps browser props landscape false (tick (1 # 4))) (Some 2%Z)
  /\ ~ inject_Z 2 == clamp (100 * ((1 # 4) - 0) / (10 - 0)) 0 100
  /\ ~ In 100%Z
       (progressLog (renderToVideo browser props 0 10 landscape false exampleTicks))
  /\ progressLog (handleExportVideo browser props 10 landscape exampleTicks)
     = [0; 2; 50; 0]%Z.
Proof.
  split; [eexists; reflexivity |].
  split; [reflexivity |].
  split; [reflexivity |].
  split; [intro H; vm_compute in H; discriminate |].
  split; [| reflexivity].
  intro H. vm_compute in H. intuition discriminate.
Qed.

Lemma renderToVideo_resolved b p startTime endTime format isGifMode ticks blob :
  outcome (renderToVideo b p startTime endTime format isGifMode ticks)
  = Resolved blob ->
  progressLog (renderToVideo b p startTime endTime format isGifMode ticks)
  = reports (renderLoop b p startTime endTime format isGifMode ticks)
  /\ recorded blob
     = frames (renderLoop b p startTime endTime format isGifMode ticks)
  /\ audioSetup b p isGifMode = Some (audioTrack blob)
  /\ videoBitsPerSecond blob = recorderBitrate isGifMode
  /\ stopped (renderLoop b p startTime endTime format isGifMode ticks) = true.
Proof.
  unfold renderToVideo.
  destruct (audioSetup b p isGifMode) as [d|]; simpl; [| discriminate].
  destruct (isTypeSupported b recorderMimeType); simpl; [| discriminate].
  destruct (stopped _); [| discriminate].
  intros [= <-]. simpl. repeat split.
Qed.

Lemma composited_incl endTime ticks v :
  In v (composited endTime ticks) -> In v ticks.
Proof.
  induction ticks as [|u ticks IH]; simpl; [tauto |].
  destruct (_ || _)%bool; simpl; [tauto |].
  intros [H | H]; auto.
Qed.

(** The rounding of the code shows at 29, 57 and 58 s of a 100 s export:
    [29 / 100 * 100] is [28.999999999999996] in double precision. *)
Example progress_rounds_as_the_code_does :
  map (fun pos => progressAt 0 100 (inject_Z pos)) [29; 57; 58; 50; 99]%Z
  = [28; 56; 57; 50; 99]%Z.
Proof. vm_compute. reflexivity. Qed.

(** C2, as the code has it: a full export (the only kind of job that
    reports progress: a highlight run reports nothing) runs from 0 to an
    [endTime > 0]; when its run resolves, the progress reported after
    each composited frame is
    [Math.floor(((currentPos - 0) / (endTime - 0)) * 100)] with every
    operation rounded to a double and no clamp; every reported value lies
    between 0 and 99, so 100 is never reported (the call that ends the
    run reports nothing, and [handleExportVideo] then sets the progress
    to 0); and the values are non-decreasing when the frame positions
    are.  Positions and [endTime] are doubles, positions are not
    negative. *)
Theorem progress_is_floor_below_100 :
  forall (b : Browser) (p : Props) (endTime : Q) (format : Format)
         (ticks : list MediaElement) (blob : Artifact),
    0 < endTime ->
    Double.representable endTime ->
    Forall (fun v => 0 <= currentTime v
                     /\ Double.representable (currentTime v)) ticks ->
    outcome (renderToVideo b p 0 endTime format false ticks)
    = Resolved blob ->
    let log :=
      progressLog (renderToVideo b p 0 endTime format false ticks) in
    log = map (fun v =>
                 Qfloor
                   (Double.mul
                      (Double.div (Double.sub (currentTime v) 0)
                         (Double.sub endTime 0))
                      100))
            (composited endTime ticks)
    /\ (forall v, In v log -> (0 <= v <= 99)%Z)
    /\ (Sorted (fun u v => currentTime u <= currentTime v) ticks ->
        Sorted Z.le log)
    /\ progressLog (handleExportVideo b p endTime format ticks) = log ++ [0%Z]
    /\ (forall startTime' endTime' format' ticks',
          progressLog
            (renderToVideo b p startTime' endTime' format' true ticks')
          = []).
Proof.
  intros b p endTime format ticks blob Hwin Rend Hticks Hres log.
  assert (log = map (fun v => progressAt 0 endTime (currentTime v))
                  (composited endTime ticks)) as Hlog.
  { subst log. destruct (renderToVideo_resolved _ _ _ _ _ _ _ _ Hres) as [-> _].
    apply renderLoop_reports. }
  assert (progressLog (handleExportVideo b p endTime format ticks)
          = log ++ [0%Z]) as Hexp.
  { unfold handleExportVideo.
    assert (Qeq_bool endTime 0 = false) as ->.
    { destruct (Qeq_bool endTime 0) eqn:E; [| reflexivity].
      apply Qeq_bool_iff in E. lra. }
    now rewrite Hres. }
  assert (forall startTime' endTime' format' ticks',
            progressLog
              (renderToVideo b p startTime' endTime' format' true ticks')
            = []) as Hgif.
  { intros s' e' f' t'. unfold renderToVideo, audioSetup. simpl.
    destruct (isTypeSupported b recorderMimeType); simpl; [| reflexivity].
    apply renderLoop_reports_gif. }
  split; [exact Hlog |].
  split; [| split; [| split; [exact Hexp | exact Hgif]]]; rewrite Hlog.
  - intros z Hz. apply in_map_iff in Hz. destruct Hz as [v [<- Hv]].
    pose proof (composited_before _ _ _ Hv) as [Hlt _].
    apply composited_incl in Hv.
    rewrite Forall_forall in Hticks. destruct (Hticks v Hv) as [H0 Rv].
    split.
    + now apply progressAt_nonneg.
    + now apply progressAt_below_100.
  - intros Hs. apply reports_sorted; auto. now apply composited_sorted.
Qed.

Lemma progress_is_floor_below_100_witness :
  progressLog (renderToVideo browser props 0 10 landscape false exampleTicks)
  = map (fun v =>
           Qfloor
             (Double.mul
                (Double.div (Double.sub (currentTime v) 0) (Double.sub 10 0))
                100))
      (composited 10 exampleTicks)
  /\ (forall v,
        In v (progressLog
                (renderToVideo browser props 0 10 landscape false exampleTicks)) ->
        (0 <= v <= 99)%Z).
Proof.
  refine (let H := progress_is_floor_below_100 browser props 10 landscape
                     exampleTicks _ eq_refl _ _ eq_refl in
          conj (proj1 H) (proj1 (proj2 H))).
  - vm_compute. reflexivity.
  - repeat constructor; vm_compute; congruence.
Defined.

(** The recorder of the export is asked for one codec,
    [video/webm;codecs=vp9], and nothing else is tried: an export whose
    audio setup went through fails at the construction of the recorder if
    and only if the browser does not support that one codec. *)
Lemma encoderUnsupported_iff b p startTime endTime format isGifMode ticks :
  encoderUnsupported
    (renderToVideo b p startTime endTime format isGifMode ticks) = true
  <-> audioSetup b p isGifMode <> None
      /\ isTypeSupported b "video/webm;codecs=vp9" = false.
Proof.
  unfold renderToVideo, encoderUnsupported.
  fold recorderMimeType.
  destruct (audioSetup b p isGifMode) as [d|]; simpl.
  - destruct (isTypeSupported b recorderMimeType); simpl.
    + destruct (stopped _); simpl; split; intros H;
        try discriminate; destruct H; discriminate.
    + split; intros _; [split; [discriminate | reflexivity] | reflexivity].
  - split; [discriminate | intros [H _]; now destruct H].
Qed.

(** C8: the export does not do what the claim says, and what the two
    other recorders of the program do.  In a browser that records
    [video/webm] but not [video/webm;codecs=vp9] the screen recorder
    ([Recorder.startRecording]) and the simulation recorder
    ([SimulationView.startSimulation]) fall back to [video/webm] and
    start, while the export asks for VP9 alone and fails at the
    construction of its recorder, for a full export and for every
    highlight clip; so it is in the browser of [browserNoVp9], where the
    promise of the export is never resolved. *)
Theorem export_fails_where_recorders_fall_back :
  (forall (b : Browser) (p : Props) (startTime endTime : Q) (format : Format)
          (isGifMode : bool) (ticks : list MediaElement),
      isTypeSupported b "video/webm;codecs=vp9" = false ->
      isTypeSupported b "video/webm" = true ->
      Recorder.startRecording (isTypeSupported b) true
      = Recorder.Started "video/webm" "video/webm" 1000000
      /\ Recorder.startSimulation (isTypeSupported b) true
         = Recorder.Started "video/webm" "video/webm" 2500000
      /\ (audioSetup b p isGifMode <> None ->
          renderToVideo b p startTime endTime format isGifMode ticks
          = mkRun (Threw NotSupportedError) []))
  /\ recorderMimeType = "video/webm;codecs=vp9"%string
  /\ isTypeSupported browserNoVp9 "video/webm;codecs=vp9" = false
  /\ isTypeSupported browserNoVp9 "video/webm" = true
  /\ existsb (isTypeSupported browserNoVp9) Recorder.mimeTypes = true
  /\ Recorder.startRecording (isTypeSupported browserNoVp9) true
     = Recorder.Started "video/webm" "video/webm" 1000000
  /\ Recorder.startSimulation (isTypeSupported browserNoVp9) true
     = Recorder.Started "video/webm" "video/webm" 2500000
  /\ renderToVideo browserNoVp9 props 0 10 landscape false exampleTicks
     = mkRun (Threw NotSupportedError) []
  /\ encoderUnsupported
       (renderToVideo browserNoVp9 props 0 10 landscape false exampleTicks)
     = true
  /\ handleExportVideo browserNoVp9 props 10 landscape exampleTicks
     = mkRun (Threw NotSupportedError) []
  /\ (exists blob,
        outcome (renderToVideo browser props 0 10 landscape false exampleTicks)
        = Resolved blob).
Proof.
  split; [| repeat apply conj; try reflexivity; eexists; reflexivity].
  intros b p startTime endTime format isGifMode ticks Hvp9 Hwebm.
  repeat apply conj.
  - unfold Recorder.startRecording, Recorder.mimeTypes.
    cbn [negb find]. rewrite Hvp9, Hwebm, Hwebm. reflexivity.
  - unfold Recorder.startSimulation.
    cbn [negb]. rewrite Hvp9, Hwebm. reflexivity.
  - intros Ha. unfold renderToVideo, recorderMimeType.
    destruct (audioSetup b p isGifMode); [| contradiction].
    now rewrite Hvp9.
Qed.

(** The claim of C9 fails when [decodeAudioData] rejects the narration:
    the promise of the export is never resolved, where the same run with
    a decodable narration resolves with an artifact. *)
Lemma audio_decode_failure_counterexample :
  renderToVideo browserBadAudio props 0 10 landscape false exampleTicks
  = mkRun (Threw EncodingError) []
  /\ (exists blob,
        outcome (renderToVideo browser props 0 10 landscape false exampleTicks)
        = Resolved blob).
Proof. split; [reflexivity | eexists; reflexivity]. Qed.

(** C9, as the code has it: when the narration is to be mixed in (a full
    export, voice-over enabled, an audio blob present) and its decoding
    fails, the export stops at that step: no recorder is created, no
    frame is composited, no progress is reported and the promise is never
    resolved, so no artifact is returned. *)
Theorem audio_decode_failure_is_fatal :
  forall (b : Browser) (p : Props) (startTime endTime : Q) (format : Format)
         (ticks : list MediaElement) (blob : string),
    isVoiceoverEnabled p = true ->
    audioBlob p = Some blob ->
    decodeAudioData b blob = false ->
    renderToVideo b p startTime endTime format false ticks
    = mkRun (Threw EncodingError) []
    /\ forall artifact,
         outcome (renderToVideo b p startTime endTime format false ticks)
         <> Resolved artifact.
Proof.
  intros b p startTime endTime format ticks blob He Hb Hd.
  assert (renderToVideo b p startTime endTime format false ticks
          = mkRun (Threw EncodingError) []) as ->.
  { unfold renderToVideo, audioSetup. simpl. now rewrite He, Hb, Hd. }
  split; [reflexivity | discriminate].
Qed.

Lemma audio_decode_failure_is_fatal_witness :
  renderToVideo browserBadAudio props 0 10 landscape false exampleTicks
  = mkRun (Threw EncodingError) [].
Proof.
  exact (proj1 (audio_decode_failure_is_fatal browserBadAudio props 0 10
                  landscape exampleTicks "RIFF" eq_refl eq_refl eq_refl)).
Defined.

End RenderClaims.

(** ** Preview overlay against exported frame *)

Module OverlayClaims.
Import Preview Render RenderFacts PreviewClaims Fixtures.

(** With a zoom listed before an overlapping caption, the preview shows
    the zoom's text while the exported frame carries the caption's. *)
Example zoom_before_caption :
  captionOverlay
    (handleTimeUpdate [zoomZ; captionB] [] true false (tick 2)
       (mkState 0 None None (zoomFor None) None))
  = Some "Zooming in"%string
  /\ captionTexts
       (frameOps browser (mkProps [zoomZ; captionB] [] None true)
          landscape false (tick 2))
     = ["second"%string].
Proof. split; reflexivity. Qed.



End OverlayClaims.

(** ** Highlight clips *)

Module HighlightClaims.
Import Render RenderFacts RenderClaims Highlights Fixtures.

(** Scenario D of the specification: five events that are not zooms give
    three clips, the third one cut at the end of an 8 s recording. *)
Example scenario_D :
  map (fun c => (call_start c, call_end c))
    (calls [captionA; zoomZ; captionB; highlightH; captionA; captionB] 8)
  = [(0, Qmin (0 + 3) 8); (1, Qmin (1 + 3) 8); (6, Qmin (6 + 3) 8)]
  /\ Qmin (6 + 3) 8 = 8.
Proof. split; reflexivity. Qed.

Example two_eligible_events_two_clips :
  option_map (map gif_name)
    (handleGenerateMagicGifs browser
       (mkProps [captionA; zoomZ; highlightH] [] None true) 8
       (fun e => [tick (ev_startTime e); tick 100]))
  = Some ["GIF-first.webm"; "GIF-Look-here.webm"]%string.
Proof. reflexivity. Qed.







(** Of two events the first clip holds the frames of the first window and
    the second clip those of the second window; a recorder that cannot
    encode gives no clip at all. *)
Example clips_hold_their_windows :
  option_map (map (fun g => (gif_name g, List.length (recorded (gif_blob g)))))
    (handleGenerateMagicGifs browser
       (mkProps [captionA; zoomZ; highlightH] [] None true) 8
       (fun e => [tick (ev_startTime e); tick (ev_startTime e + 1);
                  tick (ev_startTime e + 3); tick 100]))
  = Some [("GIF-first.webm"%string, 2%nat);
          ("GIF-Look-here.webm"%string, 2%nat)]
  /\ handleGenerateMagicGifs browserNoVp9
       (mkProps [captionA; zoomZ; highlightH] [] None true) 8
       (fun e => [tick (ev_startTime e); tick 100])
     = None.
Proof. split; reflexivity. Qed.

End HighlightClaims.

(** ** The WAV container *)

Module WavFacts.
Import Wav DoubleFacts.

Lemma setUint8_at pre x post v :
  setUint8 (pre ++ x :: post) (List.length pre) v
  = Some (pre ++ toUint8 v :: post).
Proof.
  unfold setUint8.
  assert ((List.length pre <? List.length (pre ++ x :: post))%nat = true) as ->.
  { apply Nat.ltb_lt. rewrite length_app. simpl. lia. }
  f_equal. induction pre as [|a pre IH]; simpl; [reflexivity |].
  now inversion IH as [E]; rewrite !E.
Qed.

Lemma setUint8_next pre x post off v :
  off = List.length pre ->
  setUint8 (pre ++ x :: post) off v = Some ((pre ++ [toUint8 v]) ++ post).
Proof. intros ->. rewrite setUint8_at, <- app_assoc. reflexivity. Qed.

Lemma writeString_at s : forall pre post,
  writeString (pre ++ repeat Byte.x00 (String.length s) ++ post)
    (List.length pre) s
  = Some (pre ++ bytesOf s ++ post).
Proof.
  induction s as [|c s IH]; intros pre post; [reflexivity |].
  cbn [writeString String.length repeat app].
  rewrite setUint8_at. cbn [bind].
  replace (S (List.length pre))
    with (List.length (pre ++ [toUint8 (Z.of_nat (nat_of_ascii c))]))
    by (rewrite length_app; simpl; lia).
  change (pre ++ toUint8 (Z.of_nat (nat_of_ascii c))
              :: repeat Byte.x00 (String.length s) ++ post)
    with (pre ++ [toUint8 (Z.of_nat (nat_of_ascii c))]
              ++ repeat Byte.x00 (String.length s) ++ post).
  rewrite app_assoc, IH, <- app_assoc. reflexivity.
Qed.

Lemma writeString_seg s pre post off :
  off = List.length pre ->
  writeString (pre ++ repeat Byte.x00 (String.length s) ++ post) off s
  = Some ((pre ++ bytesOf s) ++ post).
Proof. intros ->. rewrite writeString_at, app_assoc. reflexivity. Qed.

Lemma setUint32_seg q pre post off :
  off = List.length pre ->
  setUint32 (pre ++ repeat Byte.x00 4 ++ post) off q
  = Some ((pre ++ le32 q) ++ post).
Proof.
  intros ->. unfold setUint32, le32. cbn [repeat app].
  rewrite setUint8_next by reflexivity. cbn [bind].
  rewrite setUint8_next by (rewrite length_app; reflexivity). cbn [bind].
  rewrite setUint8_next by (rewrite !length_app; simpl; lia). cbn [bind].
  rewrite setUint8_next by (rewrite !length_app; simpl; lia).
  rewrite <- !app_assoc. reflexivity.
Qed.

Lemma setUint16_seg q pre post off :
  off = List.length pre ->
  setUint16 (pre ++ repeat Byte.x00 2 ++ post) off q
  = Some ((pre ++ le16 q) ++ post).
Proof.
  intros ->. unfold setUint16, le16. cbn [repeat app].
  rewrite setUint8_next by reflexivity. cbn [bind].
  rewrite setUint8_next by (rewrite length_app; reflexivity).
  rewrite <- !app_assoc. reflexivity.
Qed.

Lemma setBytes_tail pre src off :
  off = List.length pre ->
  setBytes (pre ++ repeat Byte.x00 (List.length src)) off src
  = Some (pre ++ src).
Proof.
  intros ->. unfold setBytes.
  rewrite length_app, repeat_length, Nat.leb_refl.
  rewrite firstn_app, firstn_all, Nat.sub_diag. simpl. rewrite app_nil_r.
  rewrite skipn_all2 by (rewrite length_app, repeat_length; lia).
  now rewrite app_nil_r.
Qed.

(** The thirteen header writes and the copy of the samples all land
    inside the buffer, one after the other. *)
Lemma addWavHeader_layout pcm r c b :
  addWavHeader pcm r c b
  = Some (wavHeader (List.length pcm) r (orDefault c 1) (orDefault b 16)
            ++ pcm).
Proof.
  unfold addWavHeader.
  set (n := List.length pcm).
  set (cc := orDefault c 1). set (bb := orDefault b 16).
  set (len := inject_Z (Z.of_nat n)).
  change (repeat Byte.x00 (44 + n)) with
    ([] ++ repeat Byte.x00 (String.length "RIFF") ++ repeat Byte.x00 4
        ++ repeat Byte.x00 (String.length "WAVE")
        ++ repeat Byte.x00 (String.length "fmt ")
        ++ repeat Byte.x00 4 ++ repeat Byte.x00 2 ++ repeat Byte.x00 2
        ++ repeat Byte.x00 4 ++ repeat Byte.x00 4 ++ repeat Byte.x00 2
        ++ repeat Byte.x00 2 ++ repeat Byte.x00 (String.length "data")
        ++ repeat Byte.x00 4 ++ repeat Byte.x00 n).
  rewrite writeString_seg by reflexivity. cbn [bind].
  rewrite setUint32_seg by reflexivity. cbn [bind].
  rewrite writeString_seg by reflexivity. cbn [bind].
  rewrite writeString_seg by reflexivity. cbn [bind].
  rewrite setUint32_seg by reflexivity. cbn [bind].
  rewrite setUint16_seg by reflexivity. cbn [bind].
  rewrite setUint16_seg by reflexivity. cbn [bind].
  rewrite setUint32_seg by reflexivity. cbn [bind].
  rewrite setUint32_seg by reflexivity. cbn [bind].
  rewrite setUint16_seg by reflexivity. cbn [bind].
  rewrite setUint16_seg by reflexivity. cbn [bind].
  rewrite writeString_seg by reflexivity. cbn [bind].
  rewrite setUint32_seg by reflexivity. cbn [bind].
  subst n. rewrite setBytes_tail by reflexivity.
  unfold wavHeader. rewrite <- !app_assoc. reflexivity.
Qed.

Lemma wavHeader_length n r c b : List.length (wavHeader n r c b) = 44%nat.
Proof. reflexivity. Qed.

Lemma byteValue_toUint8 (v : Z) : byteValue (toUint8 v) = (v mod 256)%Z.
Proof.
  unfold byteValue, toUint8.
  assert (0 <= v mod 256 < 256)%Z as Hr by (apply Z.mod_pos_bound; lia).
  pose proof (Byte.to_of_N_option_map (Z.to_N (v mod 256))) as H.
  assert (N.leb (Z.to_N (v mod 256)) 255 = true) as E
    by (apply N.leb_le; lia).
  rewrite E in H.
  destruct (Byte.of_N (Z.to_N (v mod 256))) as [y|]; simpl in H;
    [| discriminate].
  injection H as ->. lia.
Qed.

Lemma le16_sum (n : Z) :
  (n mod 256 + 256 * ((n / 256) mod 256) = n mod 65536)%Z.
Proof. Z.to_euclidean_division_equations. lia. Qed.

Lemma le32_sum (n : Z) :
  (n mod 256 + 256 * ((n / 256) mod 256) + 65536 * ((n / 65536) mod 256)
   + 16777216 * ((n / 16777216) mod 256) = n mod 4294967296)%Z.
Proof. Z.to_euclidean_division_equations. lia. Qed.

Lemma getUint8_after pre l k :
  getUint8 (pre ++ l) (List.length pre + k) = getUint8 l k.
Proof.
  unfold getUint8. rewrite nth_error_app2 by lia.
  now replace (List.length pre + k - List.length pre)%nat with k by lia.
Qed.

(** What the getters read back from a field written little-endian. *)
Lemma getUint32_le32 q pre post off :
  off = List.length pre ->
  getUint32 (pre ++ le32 q ++ post) off
  = Some (toInteger q mod 4294967296)%Z.
Proof.
  intros ->. unfold getUint32.
  rewrite <- (Nat.add_0_r (List.length pre)) at 1.
  rewrite !getUint8_after. unfold getUint8, le32.
  cbn [nth_error app option_map].
  now rewrite !byteValue_toUint8, le32_sum.
Qed.

Lemma getUint16_le16 q pre post off :
  off = List.length pre ->
  getUint16 (pre ++ le16 q ++ post) off = Some (toInteger q mod 65536)%Z.
Proof.
  intros ->. unfold getUint16.
  rewrite <- (Nat.add_0_r (List.length pre)) at 1.
  rewrite !getUint8_after. unfold getUint8, le16.
  cbn [nth_error app option_map].
  now rewrite !byteValue_toUint8, le16_sum.
Qed.

Lemma toInteger_Z (z : Z) : toInteger (inject_Z z) = z.
Proof.
  unfold toInteger. destruct (Qle_bool 0 (inject_Z z));
    [apply Qfloor_Z | apply Qceiling_Z].
Qed.

Lemma toInteger_int (a : Q) (z : Z) : a == inject_Z z -> toInteger a = z.
Proof.
  intros H. unfold toInteger. destruct (Qle_bool 0 a); rewrite H;
    [apply Qfloor_Z | apply Qceiling_Z].
Qed.

Lemma toInteger_eighth (a : Q) (n : Z) :
  (0 <= n)%Z -> a == inject_Z n / 8 -> toInteger a = (n / 8)%Z.
Proof.
  intros Hn Ha. unfold toInteger.
  assert (Qle_bool 0 a = true) as ->.
  { apply Qle_bool_iff. rewrite Ha. unfold Qdiv.
    apply Qmult_le_0_compat; [| discriminate].
    change 0 with (inject_Z 0). now rewrite <- Zle_Qle. }
  rewrite Ha. symmetry. apply (Zdiv_Qdiv n 8).
Qed.

Ltac read_field32 off q :=
  match goal with
  | |- getUint32 (?H ++ ?pcm) off = _ =>
      change (H ++ pcm)
        with (firstn off H ++ le32 q ++ (skipn (off + 4) H ++ pcm));
      rewrite getUint32_le32 by reflexivity
  end.

Ltac read_field16 off q :=
  match goal with
  | |- getUint16 (?H ++ ?pcm) off = _ =>
      change (H ++ pcm)
        with (firstn off H ++ le16 q ++ (skipn (off + 2) H ++ pcm));
      rewrite getUint16_le16 by reflexivity
  end.

(** X1: whatever the samples and the parameters, no write of
    [addWavHeader] falls outside the buffer; the result is 44 bytes
    longer than the samples, carries the samples unchanged from byte 44
    on, and has the four chunk tags at offsets 0, 8, 12 and 36. *)
Theorem wav_header_in_bounds_payload_intact :
  forall (pcmData : list Byte.byte) (sampleRate : Q)
         (numChannels bitDepth : option Q),
  exists wav,
    addWavHeader pcmData sampleRate numChannels bitDepth = Some wav
    /\ List.length wav = (44 + List.length pcmData)%nat
    /\ skipn 44 wav = pcmData
    /\ getString wav 0 4 = Some "RIFF"%string
    /\ getString wav 8 4 = Some "WAVE"%string
    /\ getString wav 12 4 = Some "fmt "%string
    /\ getString wav 36 4 = Some "data"%string.
Proof.
  intros pcm r c b. eexists. split; [apply addWavHeader_layout |].
  split; [rewrite length_app; reflexivity |].
  repeat split; reflexivity.
Qed.

Lemma round64_int (z : Z) :
  (0 <= z < 2 ^ 53)%Z -> Double.round64 (inject_Z z) == inject_Z z.
Proof.
  intros H. destruct (Z.eq_dec z 0) as [-> | N]; [reflexivity |].
  assert (inject_Z z == inject_Z z * Double.pow2 0) as E
    by (unfold Double.pow2; simpl; ring).
  apply Qeq_trans with (Double.round64 (inject_Z z * Double.pow2 0));
    [now apply round64_comp |].
  apply Qeq_trans with (inject_Z z * Double.pow2 0);
    [apply (round64_exact z 0); lia | now symmetry].
Qed.

Lemma round64_eighth (z : Z) :
  (0 <= z < 2 ^ 53)%Z -> Double.round64 (inject_Z z / 8) == inject_Z z / 8.
Proof.
  intros H. destruct (Z.eq_dec z 0) as [-> | N]; [reflexivity |].
  assert (inject_Z z / 8 == inject_Z z * Double.pow2 (-3)) as E
    by (unfold Double.pow2; simpl; field).
  apply Qeq_trans with (Double.round64 (inject_Z z * Double.pow2 (-3)));
    [now apply round64_comp |].
  apply Qeq_trans with (inject_Z z * Double.pow2 (-3));
    [apply (round64_exact z (-3)); lia | now symmetry].
Qed.

(** X2: for integer parameters within their field widths, samples that
    fit a 32-bit length and a product
    [sampleRate * numChannels * bitDepth] below [2^53] (so that the byte
    rate is computed without rounding), a little-endian reader finds in
    the header the RIFF size [36 + n], the format chunk size 16, the PCM
    tag 1, the channel count, the sample rate, the byte rate
    [sampleRate * numChannels * bitDepth / 8], the block align
    [numChannels * bitDepth / 8], the bit depth and the data size [n]. *)
Theorem wav_header_fields_round_trip :
  forall (pcmData : list Byte.byte) (sampleRate numChannels bitDepth : Z),
    (0 <= sampleRate < 4294967296)%Z ->
    (0 <= numChannels < 65536)%Z ->
    (0 <= bitDepth < 65536)%Z ->
    (sampleRate * numChannels * bitDepth < 2 ^ 53)%Z ->
    (Z.of_nat (List.length pcmData) + 36 < 4294967296)%Z ->
    exists wav,
      addWavHeader pcmData (inject_Z sampleRate)
        (Some (inject_Z numChannels)) (Some (inject_Z bitDepth)) = Some wav
      /\ getUint32 wav 4 = Some (36 + Z.of_nat (List.length pcmData))%Z
      /\ getUint32 wav 16 = Some 16%Z
      /\ getUint16 wav 20 = Some 1%Z
      /\ getUint16 wav 22 = Some numChannels
      /\ getUint32 wav 24 = Some sampleRate
      /\ getUint32 wav 28
         = Some ((sampleRate * numChannels * bitDepth / 8) mod 4294967296)%Z
      /\ getUint16 wav 32 = Some ((numChannels * bitDepth / 8) mod 65536)%Z
      /\ getUint16 wav 34 = Some bitDepth
      /\ getUint32 wav 40 = Some (Z.of_nat (List.length pcmData)).
Proof.
  intros pcm r c b Hr Hc Hb Hprod Hn.
  eexists. split; [apply addWavHeader_layout |].
  cbn [orDefault].
  set (len := inject_Z (Z.of_nat (List.length pcm))).
  assert (Double.div (inject_Z b) 8 == inject_Z b / 8) as Eb
    by (apply round64_eighth; lia).
  repeat apply conj.
  - read_field32 4%nat (Double.add 36 len).
    rewrite (toInteger_int _ (36 + Z.of_nat (List.length pcm))).
    + now rewrite Z.mod_small by lia.
    + unfold Double.add. subst len.
      assert (36 + inject_Z (Z.of_nat (List.length pcm))
              == inject_Z (36 + Z.of_nat (List.length pcm))) as E
        by (rewrite inject_Z_plus; reflexivity).
      rewrite E. apply round64_int. lia.
  - read_field32 16%nat 16%Q. reflexivity.
  - read_field16 20%nat 1%Q. reflexivity.
  - read_field16 22%nat (inject_Z c).
    now rewrite toInteger_Z, Z.mod_small by lia.
  - read_field32 24%nat (inject_Z r).
    now rewrite toInteger_Z, Z.mod_small by lia.
  - read_field32 28%nat
      (Double.mul (Double.mul (inject_Z r) (inject_Z c))
         (Double.div (inject_Z b) 8)).
    rewrite (toInteger_eighth _ (r * c * b)); [reflexivity | nia |].
    assert (Double.mul (inject_Z r) (inject_Z c) == inject_Z (r * c)) as Erc.
    { unfold Double.mul. rewrite <- inject_Z_mult. apply round64_int. nia. }
    unfold Double.mul at 1. rewrite Erc, Eb.
    assert (inject_Z (r * c) * (inject_Z b / 8) == inject_Z (r * c * b) / 8)
      as E by (rewrite (inject_Z_mult (r * c) b); field).
    rewrite E. apply round64_eighth. nia.
  - read_field16 32%nat (Double.mul (inject_Z c) (Double.div (inject_Z b) 8)).
    rewrite (toInteger_eighth _ (c * b)); [reflexivity | nia |].
    unfold Double.mul. rewrite Eb.
    assert (inject_Z c * (inject_Z b / 8) == inject_Z (c * b) / 8)
      as E by (rewrite (inject_Z_mult c b); field).
    rewrite E. apply round64_eighth. nia.
  - read_field16 34%nat (inject_Z b).
    now rewrite toInteger_Z, Z.mod_small by lia.
  - read_field32 40%nat len.
    subst len. now rewrite toInteger_Z, Z.mod_small by lia.
Qed.

(** The call of [generateVoiceover] on two bytes of samples: 24 kHz, mono,
    16 bit. *)
Lemma wav_header_fields_round_trip_witness :
  exists wav,
    addWavHeader [Byte.x01; Byte.x02] (inject_Z 24000)
      (Some (inject_Z 1)) (Some (inject_Z 16)) = Some wav
    /\ getUint32 wav 4 = Some 38%Z
    /\ getUint32 wav 24 = Some 24000%Z
    /\ getUint32 wav 28 = Some 48000%Z.
Proof.
  destruct (wav_header_fields_round_trip [Byte.x01; Byte.x02] 24000 1 16)
    as [wav [H0 [H1 [_ [_ [_ [H5 [H6 _]]]]]]]]; try (split; lia); try (simpl; lia).
  exists wav. exact (conj H0 (conj H1 (conj H5 H6))).
Defined.

(** Beyond [2^53] the byte rate is rounded before it is stored: at the
    largest parameters of the field widths the header holds 16384, where
    the exact product would give 16383. *)
Example byte_rate_rounds_above_2_53 :
  option_map (fun wav => getUint32 wav 28)
    (addWavHeader [] 4294967295 (Some 65535) (Some 65535))
  = Some (Some 16384%Z)
  /\ ((4294967295 * 65535 * 65535 / 8) mod 4294967296 = 16383)%Z.
Proof. split; vm_compute; reflexivity. Qed.

End WavFacts.

(** ** The analysis result *)

Module ServiceFacts.
Import Service.

Lemma splitHead_no_sep sep s : includes sep (splitHead sep s) = false.
Proof.
  induction s as [|c s IH]; simpl; [reflexivity |].
  destruct (Ascii.eqb c sep) eqn:E; simpl; [reflexivity |].
  now rewrite E.
Qed.

Lemma splitHead_prefix sep s : String.prefix (splitHead sep s) s = true.
Proof.
  induction s as [|c s IH]; simpl; [reflexivity |].
  destruct (Ascii.eqb c sep); simpl; [reflexivity |].
  destruct (ascii_dec c c); [assumption | congruence].
Qed.

Lemma prefix_refl s : String.prefix s s = true.
Proof.
  induction s as [|c s IH]; simpl; [reflexivity |].
  destruct (ascii_dec c c); [assumption | congruence].
Qed.

Example cleanMimeType_examples :
  cleanMimeType "video/webm;codecs=vp9" = "video/webm"%string
  /\ cleanMimeType "" = "video/webm"%string
  /\ cleanMimeType "video/mp4" = "video/mp4"%string
  /\ cleanMimeType ";codecs=vp9" = ""%string.
Proof. repeat split. Qed.

Lemma splitHead_cut sep s :
  exists rest,
    s = (splitHead sep s ++ rest)%string
    /\ (rest = ""%string \/ exists r, rest = String sep r).
Proof.
  induction s as [|c s [rest [IH Hrest]]]; simpl.
  - exists ""%string. auto.
  - destruct (Ascii.eqb c sep) eqn:E.
    + apply Ascii.eqb_eq in E. subst c. exists (String sep s). simpl. eauto.
    + exists rest. simpl. split; [now rewrite <- IH | exact Hrest].
Qed.

Lemma includes_false_cut sep s :
  includes sep s = false ->
  exists rest,
    s = (s ++ rest)%string
    /\ (rest = ""%string \/ exists r, rest = String sep r).
Proof.
  intros _. exists ""%string. split; [| now left].
  induction s as [|c s IH]; simpl; [reflexivity | now rewrite <- IH].
Qed.

(** A text without [sep] followed by nothing or by [sep] and more is the
    head of the split: the cut is at the first [sep]. *)
Lemma cut_unique sep : forall head rest s,
  includes sep head = false ->
  s = (head ++ rest)%string ->
  (rest = ""%string \/ exists r, rest = String sep r) ->
  head = (if includes sep s then splitHead sep s else s).
Proof.
  induction head as [|c head IH]; intros rest s Hh Hs Hrest; simpl in *.
  - destruct Hrest as [-> | [r ->]]; subst s; simpl; [reflexivity |].
    now rewrite Ascii.eqb_refl.
  - apply Bool.orb_false_iff in Hh. destruct Hh as [Hc Hh].
    subst s. simpl. rewrite Hc. simpl.
    specialize (IH rest _ Hh eq_refl Hrest).
    destruct (includes sep (head ++ rest)); now rewrite <- IH.
Qed.

(** X3: the MIME type sent with the video is the blob's type
    ([video/webm] when the blob has none) cut just before its first [;]:
    it contains no [;], and the given type is it followed by nothing or
    by a [;] and the rest, which fixes it among all texts; a type
    without [;] is sent as it is. *)
Theorem cleanMimeType_has_no_parameters :
  forall blobType : string,
    let given :=
      if String.eqb blobType "" then "video/webm"%string else blobType in
    includes ";" (cleanMimeType blobType) = false
    /\ (exists rest,
          given = (cleanMimeType blobType ++ rest)%string
          /\ (rest = ""%string \/ exists r, rest = String ";" r))
    /\ (forall head rest,
          includes ";" head = false ->
          given = (head ++ rest)%string ->
          (rest = ""%string \/ exists r, rest = String ";" r) ->
          cleanMimeType blobType = head)
    /\ String.prefix (cleanMimeType blobType) given = true
    /\ (includes ";" given = false -> cleanMimeType blobType = given).
Proof.
  intros blobType given.
  assert (forall head rest,
            includes ";" head = false ->
            given = (head ++ rest)%string ->
            (rest = ""%string \/ exists r, rest = String ";" r) ->
            cleanMimeType blobType = head) as Hu.
  { intros head rest Hh Hg Hrest. unfold cleanMimeType. fold given.
    symmetry. now apply (cut_unique ";" head rest). }
  unfold cleanMimeType in *. fold given in Hu |- *.
  destruct (includes ";" given) eqn:E; repeat apply conj; auto.
  - apply splitHead_no_sep.
  - apply splitHead_cut.
  - apply splitHead_prefix.
  - discriminate.
  - now apply includes_false_cut.
  - apply prefix_refl.
Qed.

Example script_keeps_response_order :
  let a :=
    analysisOfResult "app"
      (Some [mkSubtitle 4 6 "second"; mkSubtitle 0 3 "first"]) None in
  map sub_text (subtitles a) = ["first"; "second"]%string
  /\ script a = "second first"%string.
Proof. split; reflexivity. Qed.

Example missing_subtitles_fallback :
  let a := analysisOfResult "https://x.dev" None None in
  subtitles a = [mkSubtitle 0 5 "Welcome to the demo of https://x.dev"]
  /\ script a = "Welcome to the demo of https://x.dev"%string
  /\ timeline a = [].
Proof. repeat split. Qed.

(** X4: the subtitles of the analysis are the response's subtitles (or
    the one fallback subtitle) reordered by ascending [startTime]: none is
    dropped, added or altered, equal start times keep their order; the
    script is joined in the order of the response, which is the order of
    the returned subtitles when the response was already ascending. *)
Theorem subtitles_sorted_script_in_response_order :
  forall (url : string) (resultSubtitles : option (list Subtitle))
         (visualEvents : option (list TimelineEvent)),
    let given :=
      match resultSubtitles with
      | Some l => l
      | None => fallbackSubtitles url
      end in
    let a := analysisOfResult url resultSubtitles visualEvents in
    Permutation (subtitles a) given
    /\ Sorted (fun s1 s2 => sub_startTime s1 <= sub_startTime s2) (subtitles a)
    /\ (forall k,
          filter (fun s => Qeq_bool (sub_startTime s) k) (subtitles a)
          = filter (fun s => Qeq_bool (sub_startTime s) k) given)
    /\ script a = String.concat " " (map sub_text given)
    /\ (Sorted (fun s1 s2 => sub_startTime s1 <= sub_startTime s2) given ->
        subtitles a = given
        /\ script a = String.concat " " (map sub_text (subtitles a))).
Proof.
  intros url rs ve given a.
  assert (subtitles a = sort bySubtitleStart given) as E by reflexivity.
  rewrite E. repeat apply conj.
  - apply (sort_perm sub_startTime).
  - apply (sort_sorted sub_startTime).
  - intros k. apply (sort_stable sub_startTime).
  - reflexivity.
  - intros H. rewrite (sort_fixed sub_startTime) by exact H.
    split; reflexivity.
Qed.

End ServiceFacts.

(** ** The project library *)

Module AppFacts.
Import App.

Local Abbreviation sameId project :=
  (fun p : DemoProject => String.eqb (id p) (id project)).

Lemma sameId_iff (project p : DemoProject) :
  String.eqb (id p) (id project) = true <-> id p = id project.
Proof. apply String.eqb_eq. Qed.

Lemma find_sameId_existsb project prev :
  (exists q, find (sameId project) prev = Some q)
  <-> existsb (sameId project) prev = true.
Proof.
  induction prev as [|p prev IH]; simpl.
  - split; [intros [q H]; discriminate | discriminate].
  - destruct (String.eqb (id p) (id project)); simpl; [| exact IH].
    split; [reflexivity | intros _; now exists p].
Qed.

Lemma save_present project prev :
  existsb (sameId project) prev = true ->
  handleSaveProject project prev
  = map (fun p => if String.eqb (id p) (id project) then project else p) prev.
Proof.
  intros H. apply find_sameId_existsb in H. destruct H as [q H].
  unfold handleSaveProject. now rewrite H.
Qed.

Lemma save_absent project prev :
  existsb (sameId project) prev = false ->
  handleSaveProject project prev = prev ++ [project].
Proof.
  intros H. unfold handleSaveProject.
  destruct (find (sameId project) prev) as [q|] eqn:E; [| reflexivity].
  assert (existsb (sameId project) prev = true) as T
    by (apply find_sameId_existsb; now exists q).
  congruence.
Qed.

Lemma replace_ids project prev :
  map id
    (map (fun p => if String.eqb (id p) (id project) then project else p) prev)
  = map id prev.
Proof.
  rewrite map_map. apply map_ext_in. intros p _.
  destruct (String.eqb (id p) (id project)) eqn:E; [| reflexivity].
  symmetry. now apply sameId_iff.
Qed.

Lemma save_ids project prev :
  map id (handleSaveProject project prev)
  = if existsb (sameId project) prev then map id prev
    else map id prev ++ [id project].
Proof.
  destruct (existsb (sameId project) prev) eqn:E.
  - rewrite save_present by exact E. apply replace_ids.
  - rewrite save_absent by exact E. now rewrite map_app.
Qed.

(** X5: saving puts the project in the library: when no saved project
    has its id it is appended; otherwise every saved project with that id
    is replaced by it, in place.  Projects with another id are kept as
    they are, and the ids of the library keep their order. *)
Theorem save_project_upserts_by_id :
  forall (project : DemoProject) (prev : list DemoProject),
    let saved := handleSaveProject project prev in
    In project saved
    /\ (forall q, In q saved ->
          q = project \/ (In q prev /\ id q <> id project))
    /\ (forall q, In q prev -> id q <> id project -> In q saved)
    /\ map id saved
       = (if existsb (sameId project) prev then map id prev
          else map id prev ++ [id project])
    /\ List.length saved
       = (if existsb (sameId project) prev then List.length prev
          else S (List.length prev)).
Proof.
  intros project prev saved.
  assert (map id saved
          = if existsb (sameId project) prev then map id prev
            else map id prev ++ [id project]) as Hids by apply save_ids.
  repeat apply conj; [| | | exact Hids |].
  - subst saved. destruct (existsb (sameId project) prev) eqn:E.
    + rewrite save_present by exact E.
      apply existsb_exists in E. destruct E as [q [Hq Hs]].
      apply in_map_iff. exists q. now rewrite Hs.
    + rewrite save_absent by exact E. apply in_or_app. right. now left.
  - subst saved. intros q Hq.
    destruct (existsb (sameId project) prev) eqn:E.
    + rewrite save_present in Hq by exact E.
      apply in_map_iff in Hq. destruct Hq as [q0 [Hq0 Hin]].
      destruct (String.eqb (id q0) (id project)) eqn:Eq; [now left |].
      right. subst q0. split; [exact Hin |].
      intro C. apply sameId_iff in C. congruence.
    + rewrite save_absent in Hq by exact E.
      apply in_app_or in Hq. destruct Hq as [Hq | [<- | []]]; [| now left].
      right. split; [exact Hq |].
      intro C. apply sameId_iff in C.
      assert (existsb (sameId project) prev = true)
        by (apply existsb_exists; now exists q).
      congruence.
  - subst saved. intros q Hq Hne.
    destruct (existsb (sameId project) prev) eqn:E.
    + rewrite save_present by exact E. apply in_map_iff. exists q.
      split; [| exact Hq].
      destruct (String.eqb (id q) (id project)) eqn:Eq; [| reflexivity].
      apply sameId_iff in Eq. contradiction.
    + rewrite save_absent by exact E. apply in_or_app. now left.
  - rewrite <- (length_map id saved), Hids.
    destruct (existsb (sameId project) prev).
    + apply length_map.
    + rewrite length_app, length_map. simpl. lia.
Qed.

Lemma existsb_after_save project prev :
  existsb (sameId project) (handleSaveProject project prev) = true.
Proof.
  apply existsb_exists. exists project. split; [| apply String.eqb_refl].
  destruct (existsb (sameId project) prev) eqn:E.
  - rewrite save_present by exact E.
    apply existsb_exists in E. destruct E as [q [Hq Hs]].
    apply in_map_iff. exists q. now rewrite Hs.
  - rewrite save_absent by exact E. apply in_or_app. right. now left.
Qed.

(** X6: saving the same project twice is saving it once, and a library
    whose ids are pairwise distinct stays so. *)
Theorem save_project_idempotent_keeps_ids_unique :
  forall (project : DemoProject) (prev : list DemoProject),
    handleSaveProject project (handleSaveProject project prev)
    = handleSaveProject project prev
    /\ (NoDup (map id prev) -> NoDup (map id (handleSaveProject project prev))).
Proof.
  intros project prev. split.
  - rewrite (save_present project (handleSaveProject project prev))
      by apply existsb_after_save.
    destruct (existsb (sameId project) prev) eqn:E.
    + rewrite save_present by exact E. rewrite map_map.
      apply map_ext. intros p.
      destruct (String.eqb (id p) (id project)) eqn:Ep.
      * now rewrite String.eqb_refl.
      * now rewrite Ep.
    + rewrite save_absent by exact E. rewrite map_app. simpl.
      rewrite String.eqb_refl. f_equal.
      rewrite <- (map_id prev) at 2. apply map_ext_in. intros p Hp.
      destruct (String.eqb (id p) (id project)) eqn:Ep; [| reflexivity].
      assert (existsb (sameId project) prev = true)
        by (apply existsb_exists; now exists p).
      congruence.
  - intros Hnd. rewrite save_ids.
    destruct (existsb (sameId project) prev) eqn:E; [exact Hnd |].
    apply NoDup_app; [exact Hnd | repeat constructor; intros [] |].
    intros i Hi [<- | []].
    apply in_map_iff in Hi. destruct Hi as [q [Hq Hin]].
    assert (existsb (sameId project) prev = true).
    { apply existsb_exists. exists q. split; [exact Hin |].
      now apply sameId_iff. }
    congruence.
Qed.

(** X7: deleting by id removes exactly the projects with that id and
    keeps the others in order; it undoes the saving of a project whose id
    was not in the library. *)
Theorem delete_project_removes_id_undoes_new_save :
  forall (i : string) (project : DemoProject) (prev : list DemoProject),
    (forall q, In q (handleDeleteProject i prev) <-> In q prev /\ id q <> i)
    /\ handleDeleteProject i prev
       = filter (fun p => negb (String.eqb (id p) i)) prev
    /\ ((forall q, In q prev -> id q <> id project) ->
        handleDeleteProject (id project) (handleSaveProject project prev)
        = prev).
Proof.
  intros i project prev. repeat apply conj.
  - intros q. unfold handleDeleteProject. rewrite filter_In.
    split; intros [H1 H2]; split; auto.
    + intro C. subst i. now rewrite String.eqb_refl in H2.
    + destruct (String.eqb (id q) i) eqn:E; [| reflexivity].
      apply String.eqb_eq in E. contradiction.
  - reflexivity.
  - intros Hnew.
    assert (existsb (sameId project) prev = false) as E.
    { destruct (existsb (sameId project) prev) eqn:E; [| reflexivity].
      apply existsb_exists in E. destruct E as [q [Hq Hs]].
      apply sameId_iff in Hs. now destruct (Hnew q Hq). }
    rewrite save_absent by exact E. unfold handleDeleteProject.
    rewrite filter_app. simpl. rewrite String.eqb_refl. simpl.
    rewrite app_nil_r. apply forallb_filter_id.
    apply forallb_forall. intros q Hq.
    destruct (String.eqb (id q) (id project)) eqn:Eq; [| reflexivity].
    apply String.eqb_eq in Eq. now destruct (Hnew q Hq).
Qed.

End AppFacts.

(** ** The processing step *)

Module ProcessingFacts.
Import App.

Lemma sanitize_min_durations raw :
  Forall (fun e => 2 <= ev_endTime e - ev_startTime e) (Sanitize.sanitize raw).
Proof.
  apply Forall_forall. intros e He.
  rewrite <- (SanitizeFacts.sanitize_members_fixed raw e He).
  apply SanitizeFacts.extend_min_duration.
Qed.

(** X8: whatever the two services answer, the processing step keeps the
    recorded blob in the project and ends either in the editor, with the
    error banner untouched, or back at the recorder with the processing
    error; it ends in the editor exactly when the analysis succeeded and
    the voice-over was not needed (empty script) or succeeded too.  The
    result of a successful analysis stays in the project even when the
    voice-over then fails, and the screen is never the unknown-state
    fallback. *)
Theorem processing_ends_in_editor_or_recorder :
  forall (analyze : string -> string -> string -> option Service.Analysis)
         (generateVoiceover : string -> option string)
         (blob : string) (st : State),
    let st' := handleRecordingComplete analyze generateVoiceover blob st in
    let answer :=
      analyze blob (url (project st)) (description (project st)) in
    videoBlob (project st') = Some blob
    /\ (step st' = EDITING /\ error st' = error st
        \/ step st' = RECORDING /\ error st' = Some processingError)
    /\ (step st' = EDITING <->
        exists a, answer = Some a
                  /\ (Service.script a = ""%string
                      \/ exists audio,
                           generateVoiceover (Service.script a) = Some audio))
    /\ (forall a, answer = Some a ->
          timeline (project st') = Service.timeline a
          /\ subtitles (project st') = Service.subtitles a
          /\ voiceoverScript (project st') = Service.script a)
    /\ render st' <> UnknownState.
Proof.
  intros analyze gen blob st st' answer.
  subst st'. unfold handleRecordingComplete. fold answer.
  destruct answer as [a|].
  - destruct (String.eqb (Service.script a) "") eqn:Es.
    + apply String.eqb_eq in Es. repeat apply conj; simpl; auto.
      * intros _. exists a. auto.
      * intros a' [= <-]. auto.
      * unfold render. simpl. discriminate.
    + assert (Service.script a <> ""%string) as Hne
        by (intro C; rewrite C in Es; discriminate).
      destruct (gen (Service.script a)) as [audio|] eqn:Eg.
      * repeat apply conj; simpl; auto.
        -- intros _. exists a. split; [reflexivity |]. right. now exists audio.
        -- intros a' [= <-]. auto.
        -- unfold render. simpl. discriminate.
      * repeat apply conj; simpl; auto.
        -- discriminate.
        -- intros [a' [[= <-] [C | [audio C]]]]; [contradiction |].
           rewrite Eg in C. discriminate.
        -- intros a' [= <-]. auto.
        -- unfold render. simpl. discriminate.
  - repeat apply conj; simpl; auto.
    + discriminate.
    + intros [a [C _]]. discriminate.
    + intros a C. discriminate.
    + unfold render. simpl. discriminate.
Qed.

(** What the pass does to one event of the response: only the end
    changes, it never moves back nor before the start, and an end at or
    after [startTime + 2] stays. *)
Lemma extend_keeps t :
  let e := Sanitize.extend t in
  e = Sanitize.withEndTime t (ev_endTime e)
  /\ ev_startTime e <= ev_endTime e
  /\ ev_endTime t <= ev_endTime e
  /\ (ev_startTime t + 2 <= ev_endTime t -> ev_endTime e = ev_endTime t).
Proof.
  unfold Sanitize.extend, Sanitize.withEndTime. simpl.
  destruct (Qlt_le_dec _ 2) as [L|L]; repeat apply conj; auto; try lra.
Qed.

(** X9: when the analysis is the service's own post-processing of a
    response and the step ends in the editor, the editor is opened on the
    recorded blob with the events of the response, none dropped or added,
    in ascending order of [startTime], and with subtitles in ascending
    order.  Each event is an event of the response with, at most, another
    end; its end is not before its start and not before the end the
    response gave, and it is that end when the response gave at least
    [startTime + 2]. *)
Theorem editor_receives_sanitized_timeline :
  forall (generateVoiceover : string -> option string)
         (blob : string) (st : State)
         (resultSubtitles : option (list Subtitle))
         (visualEvents : option (list TimelineEvent)),
    let st' :=
      handleRecordingComplete
        (fun _ url _ =>
           Some (Service.analysisOfResult url resultSubtitles visualEvents))
        generateVoiceover blob st in
    let response := match visualEvents with Some l => l | None => [] end in
    step st' = EDITING ->
    exists audio tl subs script,
      render st' = EditorView blob audio tl subs script
      /\ Sanitize.ascending tl
      /\ Permutation (map (fun e => Sanitize.withEndTime e 0) tl)
           (map (fun t => Sanitize.withEndTime t 0) response)
      /\ Forall (fun e =>
                   ev_startTime e <= ev_endTime e
                   /\ exists t,
                        In t response
                        /\ e = Sanitize.withEndTime t (ev_endTime e)
                        /\ ev_endTime t <= ev_endTime e
                        /\ (ev_startTime t + 2 <= ev_endTime t ->
                            ev_endTime e = ev_endTime t)) tl
      /\ Sorted (fun s1 s2 => sub_startTime s1 <= sub_startTime s2) subs.
Proof.
  intros gen blob st rs ve st' response Hstep.
  assert (Sanitize.ascending (Sanitize.timelineOfResult ve)) as Ha
    by apply SanitizeFacts.sanitize_ascending.
  assert (Permutation
            (map (fun e => Sanitize.withEndTime e 0)
               (Sanitize.timelineOfResult ve))
            (map (fun t => Sanitize.withEndTime t 0) response)) as Hp.
  { unfold Sanitize.timelineOfResult. fold response.
    rewrite (SanitizeFacts.sanitize_perm response), map_map.
    reflexivity. }
  assert (Forall (fun e =>
                    ev_startTime e <= ev_endTime e
                    /\ exists t,
                         In t response
                         /\ e = Sanitize.withEndTime t (ev_endTime e)
                         /\ ev_endTime t <= ev_endTime e
                         /\ (ev_startTime t + 2 <= ev_endTime t ->
                             ev_endTime e = ev_endTime t))
            (Sanitize.timelineOfResult ve)) as Hd.
  { apply Forall_forall. intros e He.
    unfold Sanitize.timelineOfResult in He. fold response in He.
    apply (Permutation_in _ (SanitizeFacts.sanitize_perm response)) in He.
    apply in_map_iff in He. destruct He as [t [<- Ht]].
    destruct (extend_keeps t) as [H1 [H2 [H3 H4]]].
    split; [exact H2 |]. exists t. repeat apply conj; auto. }
  assert (forall l, Sorted (fun s1 s2 => sub_startTime s1 <= sub_startTime s2)
                      (sort Service.bySubtitleStart l)) as Hs
    by (intro l; apply (sort_sorted sub_startTime)).
  subst st'. unfold handleRecordingComplete in *.
  destruct (String.eqb _ "") eqn:Es.
  - eexists _, _, _, _. split; [reflexivity |]. simpl. auto.
  - destruct (gen _) as [audio|] eqn:Eg; [| discriminate].
    eexists _, _, _, _. split; [reflexivity |]. simpl. auto.
Qed.

Lemma editor_receives_sanitized_timeline_witness :
  exists audio tl subs script,
    render
      (handleRecordingComplete
         (fun _ url _ =>
            Some (Service.analysisOfResult url None
                    (Some [mkEvent "b" 5 9 "late" zoom None;
                           mkEvent "a" 1 (3 # 2) "early" caption None])))
         (fun _ => Some "RIFF"%string) "webm"
         (mkState RECORDING
            (mkProject "p1" 0 "https://x.dev" "demo" [] None None None [] []
               "" None)
            "" None))
    = EditorView "webm" audio tl subs script
    /\ Sanitize.ascending tl.
Proof.
  destruct (editor_receives_sanitized_timeline (fun _ => Some "RIFF"%string)
              "webm"
              (mkState RECORDING
                 (mkProject "p1" 0 "https://x.dev" "demo" [] None None None
                    [] [] "" None)
                 "" None)
              None
              (Some [mkEvent "b" 5 9 "late" zoom None;
                     mkEvent "a" 1 (3 # 2) "early" caption None])
              eq_refl) as [audio [tl [subs [script [H1 [H2 _]]]]]].
  exists audio, tl, subs, script. exact (conj H1 H2).
Defined.

End ProcessingFacts.

(** ** Recording and file names *)

Module RecorderFacts.
Import Recorder.

Example startRecording_examples :
  startRecording (fun _ => true) true
  = Started "video/webm;codecs=vp9" "video/webm" 1000000
  /\ startRecording (fun m => String.eqb m "video/mp4") true
     = Started "video/mp4" "video/mp4" 1000000
  /\ startRecording (fun _ => false) true = Failed
  /\ startRecording (fun _ => true) false = NoStream.
Proof. repeat split. Qed.

(** X10: with a stream, the recorder starts exactly when the browser
    supports one of [video/webm;codecs=vp9], [video/webm], [video/mp4]; it
    then records with the first of the three that is supported, at
    1 Mbit/s, and labels the blob [video/webm] or [video/mp4], without
    codec parameters.  When none is supported it fails. *)
Theorem recorder_uses_first_supported_type :
  forall isTypeSupported : string -> bool,
    (existsb isTypeSupported mimeTypes = true <->
     exists m bt, startRecording isTypeSupported true = Started m bt 1000000)
    /\ (existsb isTypeSupported mimeTypes = false <->
        startRecording isTypeSupported true = Failed)
    /\ (forall m bt bps,
          startRecording isTypeSupported true = Started m bt bps ->
          FirstMatch (fun t => isTypeSupported t = true) mimeTypes (Some m)
          /\ bt = Service.splitHead ";" m
          /\ (bt = "video/webm"%string \/ bt = "video/mp4"%string)
          /\ bps = 1000000%Z).
Proof.
  intros sup.
  pose proof (find_FirstMatch sup (fun t => sup t = true)
                (fun t => iff_refl _) mimeTypes) as Hfirst.
  unfold startRecording, mimeTypes in *. simpl in *.
  destruct (sup "video/webm;codecs=vp9"%string) eqn:E1; simpl in *.
  - rewrite E1. split; [| split].
    + split; [intros _; eexists _, _; reflexivity | reflexivity].
    + split; discriminate.
    + intros m bt bps [= <- <- <-].
      split; [exact Hfirst | split; [reflexivity | split; [now left | reflexivity]]].
  - destruct (sup "video/webm"%string) eqn:E2; simpl in *.
    + rewrite E2. split; [| split].
      * split; [intros _; eexists _, _; reflexivity | reflexivity].
      * split; discriminate.
      * intros m bt bps [= <- <- <-].
        split; [exact Hfirst | split; [reflexivity | split; [now left | reflexivity]]].
    + destruct (sup "video/mp4"%string) eqn:E3; simpl in *.
      * rewrite E3. split; [| split].
        -- split; [intros _; eexists _, _; reflexivity | reflexivity].
        -- split; discriminate.
        -- intros m bt bps [= <- <- <-].
           split; [exact Hfirst | split; [reflexivity | split; [now right | reflexivity]]].
      * rewrite E2. split; [| split].
        -- split; [discriminate | intros [m [bt C]]; discriminate].
        -- split; reflexivity.
        -- intros m bt bps C. discriminate.
Qed.

Lemma slug_char_ok (c : ascii) : slugChar (lowerChar (dashUnlessAlnum c)) = true.
Proof.
  destruct c as [[] [] [] [] [] [] [] []]; vm_compute; reflexivity.
Qed.

Example blueprintName_example :
  blueprintName "https://Maps.Google.com/a_b?q=1"
  = "automation-blueprint-https---maps-google-com-a-b-q-1.json"%string.
Proof. reflexivity. Qed.

(** X11: the slug in the blueprint's file name has one character per
    character of the URL, each a lower-case letter, a digit or a dash. *)
Theorem blueprint_slug_is_lowercase_alnum_or_dash :
  forall url : string,
    String.length (blueprintSlug url) = String.length url
    /\ allChars slugChar (blueprintSlug url) = true.
Proof.
  intros url. unfold blueprintSlug.
  induction url as [|c url [IH1 IH2]]; [split; reflexivity |].
  simpl. rewrite IH1, IH2, slug_char_ok. split; reflexivity.
Qed.

End RecorderFacts.

(** ** Seeking, overlays and the end of a run *)

Module EditorFacts.
Import Preview Controls Render RenderFacts Highlights Fixtures.

Lemma replaceWhitespace_clean inRun s :
  Forall (fun c => isWhitespace c = false) (replaceWhitespace inRun s).
Proof.
  revert inRun. induction s as [|c s IH]; intros inRun; [constructor |].
  simpl. destruct (isWhitespace c) eqn:E.
  - destruct inRun; [apply IH |]. constructor; [reflexivity | apply IH].
  - constructor; [exact E | apply IH].
Qed.

Lemma replaceWhitespace_fixed s :
  Forall (fun c => isWhitespace c = false) s ->
  forall inRun, replaceWhitespace inRun s = s.
Proof.
  induction 1 as [|c s Hc Hs IH]; intros inRun; [reflexivity |].
  simpl. now rewrite Hc, IH.
Qed.

Lemma replaceWhitespace_in_run run : forall rest,
  Forall (fun c => isWhitespace c = true) run ->
  (rest = [] \/ exists c r, rest = c :: r /\ isWhitespace c = false) ->
  replaceWhitespace true (run ++ rest) = replaceWhitespace false rest.
Proof.
  induction run as [|w run IH]; intros rest Hrun Hrest.
  - destruct Hrest as [-> | [c [r [-> Hc]]]]; [reflexivity |].
    simpl. now rewrite Hc.
  - inversion Hrun as [|? ? Hw Hrun']; subst. simpl. rewrite Hw.
    now apply IH.
Qed.

Example replaceWhitespace_examples :
  ofCodeUnits (replaceWhitespace false (codeUnits "Look  here"))
  = "Look-here"%string
  /\ replaceWhitespace false [97; 160; 98]%N = [97; 45; 98]%N
  /\ replaceWhitespace false [32; 97; 9; 10; 12288; 98; 8232]%N
     = [45; 97; 45; 98; 45]%N.
Proof. repeat split. Qed.

(** X12: in the text part of a clip name every maximal run of
    whitespace code units ([\s] of ECMAScript, U+00A0 and the others
    included) is replaced by exactly one dash and every other code unit
    is kept in place; so the result contains no whitespace, a text
    without whitespace is used as it is, and replacing twice changes
    nothing. *)
Theorem gif_name_has_no_whitespace :
  forall text : list N,
    Forall (fun c => isWhitespace c = false) (replaceWhitespace false text)
    /\ (Forall (fun c => isWhitespace c = false) text ->
        replaceWhitespace false text = text)
    /\ replaceWhitespace false (replaceWhitespace false text)
       = replaceWhitespace false text
    /\ (forall c rest,
          text = c :: rest -> isWhitespace c = false ->
          replaceWhitespace false text = c :: replaceWhitespace false rest)
    /\ (forall w run rest,
          text = (w :: run) ++ rest ->
          Forall (fun c => isWhitespace c = true) (w :: run) ->
          (rest = [] \/ exists c r, rest = c :: r /\ isWhitespace c = false) ->
          replaceWhitespace false text = dash :: replaceWhitespace false rest)
    /\ (text = [] -> replaceWhitespace false text = []).
Proof.
  intros text. repeat apply conj.
  - apply replaceWhitespace_clean.
  - intros H. now apply replaceWhitespace_fixed.
  - apply replaceWhitespace_fixed, replaceWhitespace_clean.
  - intros c rest -> Hc. simpl. now rewrite Hc.
  - intros w run rest -> Hrun Hrest.
    inversion Hrun as [|? ? Hw Hrun']; subst. simpl. rewrite Hw.
    f_equal. now apply replaceWhitespace_in_run.
  - intros ->. reflexivity.
Qed.

Lemma no_drift (time : Q) : Qle_bool (Qabs (time - time)) (3 # 10) = true.
Proof.
  apply Qle_bool_iff.
  assert (time - time == 0) as -> by ring. discriminate.
Qed.

(** X13: a seek outside an export moves the video, the displayed time
    and the audio element to the chosen time, so the tick that follows
    finds no drift and leaves the audio element alone; during an export a
    seek changes nothing. *)
Theorem seek_aligns_audio_with_video :
  forall (timeline : list TimelineEvent) (subtitles : list Subtitle)
         (isVoiceoverEnabled : bool) (time : Q)
         (v a : MediaElement) (st : State),
    aud st = Some a ->
    let vid' := fst (seek false time (Some v) st) in
    let st' := snd (seek false time (Some v) st) in
    vid' = Some (set_currentTime v time)
    /\ st_currentTime st' = time
    /\ aud st' = Some (set_currentTime a time)
    /\ aud (handleTimeUpdate timeline subtitles isVoiceoverEnabled false
              (set_currentTime v time) st')
       = aud st'
    /\ seek true time (Some v) st = (Some v, st).
Proof.
  intros timeline subtitles en time v a st Ha vid' st'.
  assert (seek false time (Some v) st
          = (Some (set_currentTime v time),
             mkState time (currentCaption st) (currentSubtitle st)
               (zoomStyle st) (Some (set_currentTime a time)))) as Hseek.
  { unfold seek, with_aud, with_currentTime.
    cbn [aud st_currentTime currentCaption currentSubtitle zoomStyle].
    now rewrite Ha. }
  subst vid' st'. rewrite Hseek. cbn [fst snd aud st_currentTime].
  repeat apply conj; try reflexivity.
  unfold handleTimeUpdate, syncAudio, set_currentTime.
  cbn [aud currentTime paused].
  now rewrite no_drift, andb_false_r.
Qed.

Lemma seek_aligns_audio_with_video_witness :
  aud (snd (seek false 7 (Some (tick 2))
              (mkState 2 None None (zoomFor None)
                 (Some (mkMedia 2 false false 1 0 0)))))
  = Some (mkMedia 7 false false 1 0 0).
Proof.
  destruct (seek_aligns_audio_with_video [] [] true 7 (tick 2)
              (mkMedia 2 false false 1 0 0)
              (mkState 2 None None (zoomFor None)
                 (Some (mkMedia 2 false false 1 0 0)))
              eq_refl) as [_ [_ [H _]]].
  exact H.
Defined.

(** X14: in a sanitized timeline every event is active from its start
    for at least two seconds, so at any such time the preview has a
    caption: the first listed event whose interval contains the time. *)
Theorem sanitized_event_start_has_caption :
  forall (raw : list TimelineEvent) (e : TimelineEvent) (t : Q),
    In e (Sanitize.sanitize raw) ->
    ev_startTime e <= t -> t <= ev_startTime e + 2 ->
    activeAt t e = true
    /\ exists e', activeEvent t (Sanitize.sanitize raw) = Some e'
                  /\ within t e'.
Proof.
  intros raw e t He H1 H2.
  assert (activeAt t e = true) as Ha.
  { apply activeAt_within. split; [exact H1 |].
    pose proof (ProcessingFacts.sanitize_min_durations raw) as Hd.
    rewrite Forall_forall in Hd. specialize (Hd e He). simpl. lra. }
  split; [exact Ha |].
  unfold activeEvent.
  destruct (find (activeAt t) (Sanitize.sanitize raw)) as [e'|] eqn:E.
  - exists e'. split; [reflexivity |].
    apply find_some in E. now apply activeAt_within.
  - apply (find_none _ _ E) in He. congruence.
Qed.

Lemma sanitized_event_start_has_caption_witness :
  exists e',
    activeEvent 1 (Sanitize.sanitize [mkEvent "e1" 1 1 "Hi" caption None])
    = Some e'
    /\ within 1 e'.
Proof.
  refine (proj2 (sanitized_event_start_has_caption
                   [mkEvent "e1" 1 1 "Hi" caption None]
                   (mkEvent "e1" 1 (1 + 2) "Hi" caption None) 1 _ _ _)).
  - left. reflexivity.
  - apply Qle_refl.
  - unfold Qle. simpl. lia.
Defined.

End EditorFacts.

(** ** Zoom, subtitles and the end of an export run *)

Module ExportFacts.
Import Preview Controls Render RenderFacts Highlights Fixtures.

Lemma activeZoom_some t timeline z :
  activeZoom t timeline = Some z ->
  In z timeline /\ type z = zoom /\ within t z.
Proof.
  intros H. apply find_some in H. destruct H as [Hin Hp].
  apply andb_true_iff in Hp. destruct Hp as [Hk Hw].
  split; [exact Hin | split].
  - now apply EventType_eqb_eq.
  - now apply activeAt_within.
Qed.

Lemma activeZoom_none t timeline :
  (forall e, In e timeline -> type e = zoom -> ~ within t e) ->
  activeZoom t timeline = None.
Proof.
  intros H. destruct (activeZoom t timeline) as [z|] eqn:E; [| reflexivity].
  apply activeZoom_some in E. destruct E as [Hin [Hk Hw]].
  now destruct (H z Hin Hk).
Qed.

(** X15: after a preview tick the zoom is either the reset style
    (centre, scale 1), which is the case when no zoom event contains the
    time or when the first one that does has no details, or it is the
    style of the first zoom event containing the time: origin at its
    [x]% [y]% (50 where missing) and its scale (1.5 where missing). *)
Theorem preview_zoom_from_first_active_zoom :
  forall (timeline : list TimelineEvent) (subtitles : list Subtitle)
         (isVoiceoverEnabled : bool) (vid : MediaElement) (st : State),
    let st' :=
      handleTimeUpdate timeline subtitles isVoiceoverEnabled false vid st in
    let t := currentTime vid in
    let reset := mkZoomStyle center_center 1 "transform 1s ease-out" in
    (zoomStyle st' = reset
     /\ (activeZoom t timeline = None
         \/ exists z, activeZoom t timeline = Some z /\ details z = None)
     \/ exists z d,
          activeZoom t timeline = Some z
          /\ In z timeline /\ type z = zoom /\ within t z
          /\ details z = Some d
          /\ zoomStyle st'
             = mkZoomStyle
                 (percent (orDefault (x d) 50) (orDefault (y d) 50))
                 (orDefault (zoomScale d) (3 # 2))
                 "transform 1.5s cubic-bezier(0.4, 0, 0.2, 1)")
    /\ ((forall e, In e timeline -> type e = zoom -> ~ within t e) ->
        zoomStyle st' = reset).
Proof.
  intros timeline subtitles en vid st st' t reset.
  assert (zoomStyle st' = zoomFor (activeZoom t timeline)) as E by reflexivity.
  rewrite E. split.
  - destruct (activeZoom t timeline) as [z|] eqn:Ez.
    + pose proof (activeZoom_some _ _ _ Ez) as [Hin [Hk Hw]].
      destruct z as [zi zs ze zt zk [d|]].
      * right. exists (mkEvent zi zs ze zt zk (Some d)), d.
        split; [reflexivity |]. split; [exact Hin |].
        split; [exact Hk |]. split; [exact Hw |]. split; reflexivity.
      * left. split; [reflexivity |]. right. eexists. split; reflexivity.
    + left. split; [reflexivity | now left].
  - intros H. now rewrite (activeZoom_none _ _ H).
Qed.

Lemma frameOps_subtitleTexts b p format v :
  subtitleTexts (frameOps b p format false v)
  = if getContext2d b then
      match activeSubtitle (currentTime v) (subtitles p) with
      | Some s => [sub_text s]
      | None => []
      end
    else [].
Proof.
  unfold frameOps. destruct (getContext2d b); [| reflexivity].
  unfold subtitleTexts. cbn [flat_map app]. rewrite flat_map_app.
  assert (flat_map
            (fun op => match op with subtitleText t _ _ => [t] | _ => [] end)
            (drawCaption b format (exportCaption (currentTime v) (timeline p)))
          = []) as ->
    by now destruct (exportCaption (currentTime v) (timeline p)).
  now destruct (activeSubtitle (currentTime v) (subtitles p)).
Qed.

(** X16: with the voice-over switched off the preview shows no subtitle
    overlay, while a frame of a full export at the same time still carries
    the text of the active subtitle; only highlight clips are drawn
    without subtitles. *)
Theorem export_draws_subtitle_hidden_in_preview :
  forall (b : Browser) (p : Props) (format : Format) (v : MediaElement)
         (st : State) (sub : Subtitle),
    getContext2d b = true ->
    activeSubtitle (currentTime v) (subtitles p) = Some sub ->
    subtitleOverlay false
      (handleTimeUpdate (timeline p) (subtitles p) false false v st) = None
    /\ subtitleOverlay true
         (handleTimeUpdate (timeline p) (subtitles p) true false v st)
       = Some (sub_text sub)
    /\ subtitleTexts (frameOps b p format false v) = [sub_text sub]
    /\ subtitleTexts (frameOps b p format true v) = [].
Proof.
  intros b p format v st sub Hctx Hs.
  unfold subtitleOverlay, handleTimeUpdate. cbn [currentSubtitle].
  rewrite Hs, frameOps_subtitleTexts, Hctx, Hs, frameOps_gif_no_subtitle.
  repeat split.
Qed.

Lemma export_draws_subtitle_hidden_in_preview_witness :
  subtitleOverlay false
    (handleTimeUpdate (timeline props) (subtitles props) false false (tick 2)
       (mkState 0 None None (zoomFor None) None)) = None
  /\ subtitleTexts (frameOps browser props landscape false (tick 2))
     = ["Welcome"%string].
Proof.
  destruct (export_draws_subtitle_hidden_in_preview browser props landscape
              (tick 2) (mkState 0 None None (zoomFor None) None)
              (mkSubtitle 0 4 "Welcome") eq_refl eq_refl) as [H1 [_ [H3 _]]].
  exact (conj H1 H3).
Defined.

Lemma renderLoop_after_stop b p startTime endTime format isGifMode pre v rest :
  (Qle_bool endTime (currentTime v) || ended v)%bool = true ->
  renderLoop b p startTime endTime format isGifMode (pre ++ v :: rest)
  = renderLoop b p startTime endTime format isGifMode (pre ++ [v]).
Proof.
  intros Hstop. induction pre as [|u pre IH]; simpl.
  - unfold drawFrame. now rewrite Hstop.
  - destruct (drawFrame b p startTime endTime format isGifMode u);
      [reflexivity | now rewrite IH].
Qed.

Lemma stop_true endTime (v : MediaElement) :
  endTime <= currentTime v \/ ended v = true ->
  (Qle_bool endTime (currentTime v) || ended v)%bool = true.
Proof.
  intros [H | H]; apply orb_true_iff.
  - left. now apply Qle_bool_iff.
  - now right.
Qed.

(** X17: once the audio setup and the recorder are in place, the export
    stays pending exactly as long as every frame callback finds the video
    before [endTime] and not ended; when it resolves, the recording holds
    one frame per callback before the first stopping one, all at
    positions before [endTime], and callbacks after the stopping one
    change nothing. *)
Theorem export_resolves_at_first_stop :
  forall (b : Browser) (p : Props) (startTime endTime : Q) (format : Format)
         (isGifMode : bool) (ticks : list MediaElement),
    audioSetup b p isGifMode <> None ->
    isTypeSupported b recorderMimeType = true ->
    let r := renderToVideo b p startTime endTime format isGifMode ticks in
    (outcome r = Pending <->
     forall v, In v ticks -> currentTime v < endTime /\ ended v = false)
    /\ (forall blob,
          outcome r = Resolved blob ->
          recorded blob
          = map (frameOps b p format isGifMode) (composited endTime ticks)
          /\ Forall (fun v => currentTime v < endTime /\ ended v = false)
               (composited endTime ticks))
    /\ (forall pre v rest,
          ticks = pre ++ v :: rest ->
          endTime <= currentTime v \/ ended v = true ->
          r = renderToVideo b p startTime endTime format isGifMode
                (pre ++ [v])).
Proof.
  intros b p startTime endTime format isGifMode ticks Haud Hsup r.
  subst r. unfold renderToVideo.
  destruct (audioSetup b p isGifMode) as [d|]; [| now destruct Haud].
  rewrite Hsup. cbn [outcome].
  split; [| split]; [rewrite renderLoop_stopped
                    | rewrite renderLoop_stopped, renderLoop_frames |].
  - split.
    + intros H v Hv. apply stop_false.
      destruct (existsb _ ticks) eqn:E; [discriminate |].
      destruct (_ || _)%bool eqn:Ev; [| reflexivity].
      assert (existsb (fun v => Qle_bool endTime (currentTime v) || ended v)
                ticks = true) as T
        by (apply existsb_exists; now exists v).
      congruence.
    + intros H. destruct (existsb _ ticks) eqn:E; [| reflexivity].
      apply existsb_exists in E. destruct E as [v [Hv Hs]].
      apply H, stop_false in Hv. congruence.
  - intros blob H. destruct (existsb _ ticks); [| discriminate].
    injection H as <-. split; [reflexivity |].
    apply Forall_forall. intros v. apply composited_before.
  - intros pre v rest -> Hstop. apply stop_true in Hstop.
    now rewrite renderLoop_after_stop by exact Hstop.
Qed.

Lemma export_resolves_at_first_stop_witness :
  outcome (renderToVideo browser props 0 10 landscape false exampleTicks)
  = Pending <->
  (forall v, In v exampleTicks -> currentTime v < 10 /\ ended v = false).
Proof.
  refine (proj1 (export_resolves_at_first_stop browser props 0 10
                   landscape false exampleTicks _ eq_refl)).
  discriminate.
Defined.

Lemma Qmin_below_r (a c : Q) : Qmin a c <= c.
Proof. apply Q.le_min_r. Qed.

(** X18: a highlight event that starts at or after the end of the media
    gives a clip window that is over before its first frame: the run
    resolves at its first callback with an empty recording, and the clip
    is still listed. *)
Theorem late_event_gives_empty_clip :
  forall (b : Browser) (p : Props) (evt : TimelineEvent) (duration : Q)
         (v : MediaElement) (rest : list MediaElement),
    isTypeSupported b recorderMimeType = true ->
    duration <= ev_startTime evt ->
    duration <= currentTime v ->
    let c := callFor duration evt in
    call_end c <= call_start c
    /\ exists blob,
         outcome (renderToVideo b p (call_start c) (call_end c)
                    (call_format c) (call_isGifMode c) (v :: rest))
         = Resolved blob
         /\ recorded blob = []
         /\ audioTrack blob = false.
Proof.
  intros b p evt duration v rest Hsup Hlate Hpos c.
  subst c. unfold callFor.
  cbn [call_start call_end call_format call_isGifMode].
  assert (Qmin (ev_startTime evt + 3) duration <= duration) as He
    by apply Qmin_below_r.
  split; [lra |].
  assert (Qle_bool (Qmin (ev_startTime evt + 3) duration) (currentTime v)
          = true) as E by (apply Qle_bool_iff; lra).
  unfold renderToVideo, audioSetup. cbn [negb andb].
  rewrite Hsup. cbn [renderLoop]. unfold drawFrame. rewrite E.
  cbn [orb stopped outcome frames].
  eexists. split; [reflexivity | split; reflexivity].
Qed.

Lemma late_event_gives_empty_clip_witness :
  exists blob,
    outcome (renderToVideo browser props 6 (Qmin (6 + 3) 5) landscape true
               [tick 5; tick 6])
    = Resolved blob
    /\ recorded blob = [].
Proof.
  destruct (late_event_gives_empty_clip browser props highlightH 5 (tick 5)
              [tick 6] eq_refl) as [_ [blob [H1 [H2 _]]]].
  - unfold Qle. simpl. lia.
  - apply Qle_refl.
  - exists blob. exact (conj H1 H2).
Defined.

(** X19: an export that resolves hands over a [video/webm] blob recorded
    as [video/webm;codecs=vp9]; it carries the narration track exactly
    when it is a full export, the voice-over is enabled and an audio blob
    exists, and its bitrate is 5 Mbit/s for a full export and 2.5 Mbit/s
    for a highlight clip. *)
Theorem resolved_export_audio_and_bitrate :
  forall (b : Browser) (p : Props) (startTime endTime : Q) (format : Format)
         (isGifMode : bool) (ticks : list MediaElement) (blob : Artifact),
    outcome (renderToVideo b p startTime endTime format isGifMode ticks)
    = Resolved blob ->
    blobType blob = "video/webm"%string
    /\ mimeType blob = "video/webm;codecs=vp9"%string
    /\ audioTrack blob
       = (negb isGifMode && isVoiceoverEnabled p
          && match audioBlob p with Some _ => true | None => false end)%bool
    /\ videoBitsPerSecond blob
       = (if isGifMode then 2500000 else 5000000)%Z.
Proof.
  intros b p startTime endTime format isGifMode ticks blob H.
  unfold renderToVideo in H.
  destruct (audioSetup b p isGifMode) as [d|] eqn:Ea; [| discriminate].
  destruct (isTypeSupported b recorderMimeType); [| discriminate].
  cbn [outcome] in H. destruct (stopped _); [| discriminate].
  injection H as <-. cbn [blobType mimeType audioTrack videoBitsPerSecond].
  repeat apply conj; try reflexivity.
  unfold audioSetup in Ea.
  destruct (negb isGifMode && isVoiceoverEnabled p)%bool;
    [| now injection Ea as <-].
  destruct (audioBlob p) as [a|]; [| now injection Ea as <-].
  destruct (decodeAudioData b a); [now injection Ea as <- | discriminate].
Qed.

Lemma resolved_export_audio_and_bitrate_witness :
  audioTrack
    (mkArtifact "video/webm" recorderMimeType 5000000 true
       (frames (renderLoop browser props 0 10 landscape false exampleTicks)))
  = true.
Proof.
  exact (proj1 (proj2 (proj2
           (resolved_export_audio_and_bitrate browser props 0 10 landscape
              false exampleTicks _ eq_refl)))).
Defined.

End ExportFacts.
